(** * Algorithm_Choice.ipynb: two recurrences for 1/3^n and their errors

    A shallow embedding of the notebook [examples/Algorithm_Choice.ipynb]:
    the functions [prec] and [qrec] (cells 2 and 3) and the statements of
    cell 7 that build the closed-form values [expected] and the fractional
    errors [perr] and [qerr].

    NumPy arrays are mutable objects, so the embedding threads a heap of
    float arrays through a state-and-exception monad.  The arithmetic is a
    type class with two instances: IEEE binary64 (Rocq's primitive floats,
    what Python's [float] and NumPy's [float64] are) and the exact
    rationals [Qc].  The warnings NumPy issues for the floating-point
    errors of binary64 are a second layer over the same calls. *)

From Stdlib Require Import ZArith Lia QArith Qcanon Field Floats.
From stdpp Require Import base list list_numbers.

Set Warnings "-inexact-float".
Open Scope Z_scope.

(** ** Number systems *)

(** The operations the notebook applies to array elements.  [of_int] is the
    conversion Python applies to an [int] operand that meets a [float]
    (the [3] of [1./3], the [1] stored by [p[0] = 1]). *)
Class Arith (F : Type) := {
  of_int : Z → F;
  fsub : F → F → F;
  fmul : F → F → F;
  fdiv : F → F → F;
  fabs : F → F
}.

(** binary64, round to nearest even: an integer is converted by rounding
    it once. *)
Definition float_of_Z (z : Z) : float :=
  SF2Prim (binary_normalize FloatOps.prec FloatOps.emax z 0 false).

#[global] Instance binary64 : Arith float := {|
  of_int := float_of_Z;
  fsub := PrimFloat.sub;
  fmul := PrimFloat.mul;
  fdiv := PrimFloat.div;
  fabs := PrimFloat.abs
|}.

(** Exact rational arithmetic: no rounding anywhere. *)
#[global] Instance exact : Arith Qc := {|
  of_int := λ z, Q2Qc (inject_Z z);
  fsub := Qcminus;
  fmul := Qcmult;
  fdiv := Qcdiv;
  fabs := λ x, if Qclt_le_dec x (Q2Qc 0) then Qcopp x else x
|}.

(** ** Exceptions, heap and monad *)

(** The exceptions NumPy raises on the paths of this notebook.
    [NameError] stands for a reference that names no array; Python cannot
    produce one, it keeps the operations total. *)
Inductive exn := ValueError | IndexError | NameError.

Inductive res (A : Type) :=
  | Ok (a : A)
  | Raise (e : exn).
Arguments Ok {A} a.
Arguments Raise {A} e.

(** A reference to an array is its position in the heap; arrays are never
    freed, a new one goes to the end. *)
Definition loc := nat.

Abbreviation heap F := (list (list F)).

Section Notebook.
Context {F : Type} `{Arith F}.

(** A computation runs in a heap and leaves a heap, also when it raises:
    an exception does not undo what was stored before it. *)
Definition M (A : Type) : Type := heap F → res A * heap F.

#[global] Instance M_ret : MRet M := λ A a h, (Ok a, h).
#[global] Instance M_bind : MBind M := λ A B f m h,
  match m h with
  | (Ok a, h') => f a h'
  | (Raise e, h') => (Raise e, h')
  end.

Definition raise {A} (e : exn) : M A := λ h, (Raise e, h).

Definition alloc (d : list F) : M loc := λ h, (Ok (length h), h ++ [d]).

Definition load (p : loc) : M (list F) := λ h,
  match h !! p with
  | Some d => (Ok d, h)
  | None => (Raise NameError, h)
  end.

Definition store (p : loc) (d : list F) : M unit := λ h,
  (Ok tt, <[p := d]> h).

(** [for x in xs: body] *)
Fixpoint for_ {A} (xs : list A) (body : A → M unit) : M unit :=
  match xs with
  | [] => mret tt
  | x :: xs' => body x ;; for_ xs' body
  end.

(** [range(lo, hi)]: empty when [hi <= lo]. *)
Definition range (lo hi : Z) : list Z := seqZ lo (hi - lo).

(** ** NumPy *)

(** An index into an axis of [len] elements: a negative one counts from
    the end, anything outside [-len .. len-1] is an [IndexError]. *)
Definition index (len : nat) (i : Z) : option nat :=
  let i' := if decide (i < 0) then i + Z.of_nat len else i in
  if decide (0 ≤ i' < Z.of_nat len) then Some (Z.to_nat i') else None.

(** [np.zeros(n)]: negative dimensions are not allowed. *)
Definition np_zeros (n : Z) : M loc :=
  if decide (n < 0) then raise ValueError
  else alloc (replicate (Z.to_nat n) (of_int 0)).

(** [p[i]] *)
Definition getitem (p : loc) (i : Z) : M F :=
  d ← load p;
  match index (length d) i with
  | Some k => match d !! k with
              | Some v => mret v
              | None => raise IndexError
              end
  | None => raise IndexError
  end.

(** [p[i] = v] *)
Definition setitem (p : loc) (i : Z) (v : F) : M unit :=
  d ← load p;
  match index (length d) i with
  | Some k => store p (<[k := v]> d)
  | None => raise IndexError
  end.

(** ** The two recurrences (cells 2 and 3) *)

Definition prec (n : Z) : M loc :=
  p ← np_zeros (n + 1);
  setitem p 0 (of_int 1) ;;
  setitem p 1 (fdiv (of_int 1) (of_int 3)) ;;
  for_ (range 2 (n + 1)) (λ j,
    a ← getitem p (j - 1);
    b ← getitem p (j - 2);
    setitem p j (fsub (fmul (fdiv (of_int 5) (of_int 6)) a)
                      (fmul (fdiv (of_int 1) (of_int 6)) b))) ;;
  mret p.

Definition qrec (n : Z) : M loc :=
  q ← np_zeros (n + 1);
  setitem q 0 (of_int 1) ;;
  setitem q 1 (fdiv (of_int 1) (of_int 3)) ;;
  for_ (range 2 (n + 1)) (λ j,
    a ← getitem q (j - 1);
    b ← getitem q (j - 2);
    setitem q j (fsub (fmul (fdiv (of_int 5) (of_int 3)) a)
                      (fmul (fdiv (of_int 4) (of_int 9)) b))) ;;
  mret q.

(** ** Element-wise operations *)

(** The power function of the C library, which NumPy calls for
    [float64 ** float64]; IEEE 754 does not fix its rounding, so it is an
    interface here. *)
Class Pow := fpow : F → F → F.

(** Broadcasting of two one-dimensional operands: equal lengths pair up,
    a length-1 operand is stretched, anything else is a [ValueError]
    (operands could not be broadcast together). *)
Definition broadcast (f : F → F → F) (x y : list F) : res (list F) :=
  if decide (length x = length y) then Ok (zip_with f x y)
  else match x, y with
       | [a], _ => Ok (f a <$> y)
       | _, [b] => Ok ((λ a, f a b) <$> x)
       | _, _ => Raise ValueError
       end.

(** [x / y] on two arrays *)
Definition np_div (x y : loc) : M loc :=
  a ← load x;
  b ← load y;
  match broadcast fdiv a b with
  | Ok d => alloc d
  | Raise e => raise e
  end.

(** [c - t], [c / t] with a scalar on the left; [np.abs(t)] *)
Definition np_rsub (c : F) (t : loc) : M loc :=
  d ← load t; alloc (fsub c <$> d).
Definition np_rdiv (c : F) (t : loc) : M loc :=
  d ← load t; alloc (fdiv c <$> d).
Definition np_abs (t : loc) : M loc :=
  d ← load t; alloc (fabs <$> d).

(** [np.arange(m)]: the int64 array [0, 1, ..., m-1].  The notebook never
    writes to it, so it is a value here and not a heap object. *)
Definition np_arange (m : Z) : list Z := range 0 m.

(** [x ** n] with a float scalar and an int64 array: each exponent is
    converted to float64 and handed to [pow]. *)
Definition np_rpow {pw : Pow} (x : F) (n : list Z) : M loc :=
  alloc ((λ k, fpow x (of_int k)) <$> n).

(** ** Cell 7: closed form and fractional errors *)

(** [np.abs(1-computed/reference)], the expression of [perr] and [qerr]. *)
Definition ErrorEvaluator (computed reference : loc) : M loc :=
  t ← np_div computed reference;
  u ← np_rsub (of_int 1) t;
  np_abs u.

(** [n = np.arange(N+1); expected = 1/3.**n] *)
Definition ReferenceSequence {pw : Pow} (N : Z) : M loc :=
  let n := np_arange (N + 1) in
  t ← np_rpow (of_int 3) n;
  np_rdiv (of_int 1) t.

(** The names cell 7 binds. *)
Record globals := Globals {
  p : loc; q : loc; n : list Z; expected : loc; perr : loc; qerr : loc
}.

Definition cell7 {pw : Pow} : M globals :=
  let N := 40 in
  p ← prec N;
  q ← qrec N;
  let n := np_arange (N + 1) in
  expected ← (t ← np_rpow (of_int 3) n; np_rdiv (of_int 1) t);
  perr ← ErrorEvaluator p expected;
  qerr ← ErrorEvaluator q expected;
  mret (Globals p q n expected perr qerr).

End Notebook.

(** ** Models of [pow] at integer exponents *)

(** The integer a float denotes, when it denotes one. *)
Definition to_int (y : float) : option Z :=
  match Prim2SF y with
  | S754_zero _ => Some 0
  | S754_finite s m e =>
      if decide (0 ≤ e) then Some (cond_Zopp s (Z.pos m * 2 ^ e))
      else if decide (Z.pos m mod 2 ^ (- e) = 0)
           then Some (cond_Zopp s (Z.pos m / 2 ^ (- e)))
           else None
  | _ => None
  end.

(** [x ** k] rounded once, to nearest even, for a finite [x] and an
    integer [k >= 0]; NaN elsewhere. *)
Definition pow_nearest (x y : float) : float :=
  match Prim2SF x, to_int y with
  | S754_finite s m e, Some k =>
      if decide (0 ≤ k)
      then SF2Prim (binary_normalize FloatOps.prec FloatOps.emax (cond_Zopp s (Z.pos m) ^ k) (e * k) false)
      else nan
  | _, _ => nan
  end.

(** Exact comparison of a finite float with an integer. *)
Definition compare_Z (x : float) (v : Z) : option comparison :=
  match Prim2SF x with
  | S754_zero _ => Some (0 ?= v)
  | S754_finite s m e =>
      if decide (0 ≤ e) then Some (cond_Zopp s (Z.pos m * 2 ^ e) ?= v)
      else Some (cond_Zopp s (Z.pos m) ?= v * 2 ^ (- e))
  | _ => None
  end.

(** The two floats that enclose an integer [v]: both are [v] when [v] is
    a float. *)
Definition round_down (v : Z) : float :=
  let c := float_of_Z v in
  match compare_Z c v with Some Gt => next_down c | _ => c end.
Definition round_up (v : Z) : float :=
  let c := float_of_Z v in
  match compare_Z c v with Some Lt => next_up c | _ => c end.

(** [pow] is faithful at [3 ** k]: it returns one of the two floats that
    enclose the exact power (the exact power when that is a float). *)
Definition faithful3 (pw : Pow (F:=float)) (k : Z) : Prop :=
  pw 3%float (float_of_Z k) = round_down (3 ^ k) ∨
  pw 3%float (float_of_Z k) = round_up (3 ^ k).

(** ** Aside (cells 8 and 10): the same powers in int64

    [3**n] on the int64 array [n] wraps around, and [1/3**n] divides by the
    wrapped integers after converting them to float64.  The exponents
    are those of [np.arange], none negative. *)
Definition wrap64 (z : Z) : Z := (z + 2 ^ 63) mod 2 ^ 64 - 2 ^ 63.

Definition np_ipow (b : Z) (n : list Z) : list Z :=
  (λ k, wrap64 (b ^ k)) <$> n.

Definition cell8 (n : list Z) : list float :=
  (λ v, fdiv (of_int 1) (of_int v)) <$> np_ipow 3 n.

(** ** The outputs the notebook records

    As NumPy printed them, nine significant digits each. *)
Module Recorded.

(** Out[8], [1/3**n] *)
Definition Out8 : list float :=
  [1.00000000e+00; 3.33333333e-01; 1.11111111e-01; 3.70370370e-02;
   1.23456790e-02; 4.11522634e-03; 1.37174211e-03; 4.57247371e-04;
   1.52415790e-04; 5.08052634e-05; 1.69350878e-05; 5.64502927e-06;
   1.88167642e-06; 6.27225474e-07; 2.09075158e-07; 6.96917194e-08;
   2.32305731e-08; 7.74352438e-09; 2.58117479e-09; 8.60391597e-10;
   2.86797199e-10; 9.55990664e-11; 3.18663555e-11; 1.06221185e-11;
   3.54070616e-12; 1.18023539e-12; 3.93411796e-13; 1.31137265e-13;
   4.37124217e-14; 1.45708072e-14; 4.85693575e-15; 1.61897858e-15;
   5.39659528e-16; 1.79886509e-16; 5.99621697e-17; 1.99873899e-17;
   6.66246331e-18; 2.22082110e-18; 7.40273701e-19; 2.46757900e-19;
   (-1.59005804e-19)]%float.

(** Out[9], [expected] *)
Definition Out9 : list float :=
  [1.00000000e+00; 3.33333333e-01; 1.11111111e-01; 3.70370370e-02;
   1.23456790e-02; 4.11522634e-03; 1.37174211e-03; 4.57247371e-04;
   1.52415790e-04; 5.08052634e-05; 1.69350878e-05; 5.64502927e-06;
   1.88167642e-06; 6.27225474e-07; 2.09075158e-07; 6.96917194e-08;
   2.32305731e-08; 7.74352438e-09; 2.58117479e-09; 8.60391597e-10;
   2.86797199e-10; 9.55990664e-11; 3.18663555e-11; 1.06221185e-11;
   3.54070616e-12; 1.18023539e-12; 3.93411796e-13; 1.31137265e-13;
   4.37124217e-14; 1.45708072e-14; 4.85693575e-15; 1.61897858e-15;
   5.39659528e-16; 1.79886509e-16; 5.99621697e-17; 1.99873899e-17;
   6.66246331e-18; 2.22082110e-18; 7.40273701e-19; 2.46757900e-19;
   8.22526334e-20]%float.

(** Out[13], [perr] *)
Definition Out13 : list float :=
  [0.00000000e+00; 0.00000000e+00; 2.22044605e-16; 6.66133815e-16;
   1.77635684e-15; 3.10862447e-15; 5.77315973e-15; 9.54791801e-15;
   1.55431223e-14; 2.48689958e-14; 3.88578059e-14; 5.99520433e-14;
   9.17044218e-14; 1.39666056e-13; 2.12274642e-13; 3.21076499e-13;
   4.84501328e-13; 7.29194483e-13; 1.09645626e-12; 1.64734892e-12;
   2.47379894e-12; 3.71347397e-12; 5.57331958e-12; 8.36308800e-12;
   1.25486288e-11; 1.88269400e-11; 2.82445178e-11; 4.23712176e-11;
   6.35613784e-11; 9.53470636e-11; 1.43026035e-10; 2.14544826e-10;
   3.21823235e-10; 4.82740514e-10; 7.24117211e-10; 1.08618248e-09;
   1.62928049e-09; 2.44392706e-09; 3.66589759e-09; 5.49885359e-09;
   8.24828805e-09]%float.

(** Out[14], [qerr] *)
Definition Out14 : list float :=
  [0.00000000e+00; 0.00000000e+00; 4.44089210e-16; 3.10862447e-15;
   1.35447209e-14; 5.59552404e-14; 2.27817765e-13; 9.14379683e-13;
   3.66173758e-12; 1.46525014e-11; 5.86160009e-11; 2.34470221e-10;
   9.37887989e-10; 3.75155973e-09; 1.50062471e-08; 6.00249976e-08;
   2.40100000e-07; 9.60400009e-07; 3.84160005e-06; 1.53664002e-05;
   6.14656008e-05; 2.45862403e-04; 9.83449612e-04; 3.93379845e-03;
   1.57351938e-02; 6.29407752e-02; 2.51763101e-01; 1.00705240e+00;
   4.02820961e+00; 1.61128385e+01; 6.44513538e+01; 2.57805415e+02;
   1.03122166e+03; 4.12488664e+03; 1.64995466e+04; 6.59981863e+04;
   2.63992745e+05; 1.05597098e+06; 4.22388392e+06; 1.68955357e+07;
   6.75821428e+07]%float.

(** Out[5] and Out[6], [prec(4)] and [qrec(4)], eight decimals each. *)
Definition Out5 : list float :=
  [1; 0.33333333; 0.11111111; 0.03703704; 0.01234568]%float.

(** Out[10], [3**n[-1]], and Out[11], [3.**n[-1]]. *)
Definition Out10 : Z := -6289078614652622815.
Definition Out11 : float := 1.2157665459056929e+19%float.

End Recorded.

(** [x] prints as [y] does: equal to nine significant digits, or to
    eight decimals (half a unit of the last digit, and the rounding of
    the test itself). *)
Definition prints_as (x y : float) : bool :=
  (abs (x - y) <=? 5.1e-9 * abs y)%float.
Definition prints_fixed (x y : float) : bool :=
  (abs (x - y) <=? 5.1e-9)%float.

Definition all2 (f : float → float → bool) (xs ys : list float) : bool :=
  (length xs =? length ys)%nat && forallb (λ xy, f xy.1 xy.2) (zip xs ys).

(** ** Definitions used by the statements *)

Section Specs.
Context {F : Type} `{Arith F}.

(** The body of the two loops, and the function both [prec] and [qrec]
    are instances of. *)
Definition step (c1 c2 : F) (p : loc) (j : Z) : M unit :=
  a ← getitem p (j - 1);
  b ← getitem p (j - 2);
  setitem p j (fsub (fmul c1 a) (fmul c2 b)).

Definition recurrence (c1 c2 : F) (n : Z) : M loc :=
  p ← np_zeros (n + 1);
  setitem p 0 (of_int 1) ;;
  setitem p 1 (fdiv (of_int 1) (of_int 3)) ;;
  for_ (range 2 (n + 1)) (step c1 c2 p) ;;
  mret p.

(** The sequence the recurrence defines, as a function of the index:
    [terms k] is the pair [(s k, s (k+1))]. *)
Fixpoint terms (c1 c2 : F) (k : nat) : F * F :=
  match k with
  | O => (of_int 1, fdiv (of_int 1) (of_int 3))
  | S k' => let '(a, b) := terms c1 c2 k' in
            (b, fsub (fmul c1 b) (fmul c2 a))
  end.
Definition term (c1 c2 : F) (k : nat) : F := (terms c1 c2 k).1.

(** The array after the loop has filled the indices below [k]. *)
Definition filled (c1 c2 : F) (len k : nat) : list F :=
  (term c1 c2 <$> seq 0 k) ++ replicate (len - k) (of_int 0).

(** What the specification asks of a sequence [s] returned for [n]. *)
Definition obeys (c1 c2 : F) (n : Z) (s : list F) : Prop :=
  length s = Z.to_nat (n + 1) ∧
  s !! 0%nat = Some (of_int 1) ∧
  s !! 1%nat = Some (fdiv (of_int 1) (of_int 3)) ∧
  ∀ j, 2 ≤ j ≤ n →
    ∃ a b, s !! Z.to_nat (j - 1) = Some a ∧ s !! Z.to_nat (j - 2) = Some b ∧
           s !! Z.to_nat j = Some (fsub (fmul c1 a) (fmul c2 b)).

(** One fractional error. *)
Definition frac_err (c r : F) : F := fabs (fsub (of_int 1) (fdiv c r)).

(** The three arrays an evaluation allocates, from the quotient [d]. *)
Definition err_arrays (d : list F) : list (list F) :=
  [d; fsub (of_int 1) <$> d; fabs <$> (fsub (of_int 1) <$> d)].

(** The values [3.**n] and [1/3.**n] for [n = 0 .. N]. *)
Definition powers {pw : Pow} (N : Z) : list F :=
  (λ k, fpow (of_int 3) (of_int k)) <$> range 0 (N + 1).
Definition closed_form {pw : Pow} (N : Z) : list F := fdiv (of_int 1) <$> powers N.

(** The error series of a recurrence against the closed form. *)
Definition error_series {pw : Pow} (rec : Z → M loc) (n : Z) : M loc :=
  computed ← rec n;
  reference ← ReferenceSequence n;
  ErrorEvaluator computed reference.

(** A call that touches nothing it did not allocate: in every heap that
    holds its arguments ([pre]), the arrays that were there stay as they
    were, the same new arrays [new] are appended, and the call ends the
    same way [r], with a reference to one of the new arrays or with an
    exception. *)
Definition allocates (pre : heap F → Prop) (m : M loc)
    (new : list (list F)) (r : res nat) : Prop :=
  (∀ i, r = Ok i → (i < length new)%nat) ∧
  ∀ h, pre h →
    m h = (match r with
           | Ok i => Ok (length h + i)%nat
           | Raise e => Raise e
           end, h ++ new).

Definition pure_call (pre : heap F → Prop) (m : M loc) : Prop :=
  ∃ new r, allocates pre m new r.

(** A second call, made in the heap the first one left, ends as the first
    did: with the same exception, or with a reference to another array
    that holds the same elements; what the first call returned, and
    every array that was there before, is still there. *)
Definition same_again (pre : heap F → Prop) (m : M loc) : Prop :=
  ∀ h, pre h → ∃ r1 h1 r2 h2,
    m h = (r1, h1) ∧ m h1 = (r2, h2) ∧
    match r1, r2 with
    | Ok l1, Ok l2 =>
        l1 ≠ l2 ∧ is_Some (h1 !! l1) ∧
        h2 !! l2 = h1 !! l1 ∧ h2 !! l1 = h1 !! l1
    | Raise e1, Raise e2 => e1 = e2
    | _, _ => False
    end ∧
    ∀ l d, h !! l = Some d → h2 !! l = Some d.

(** No condition on the heap. *)
Definition anywhere : heap F → Prop := λ _, True.

(** The heaps in which [c] and [r] refer to arrays [cs] and [rs]. *)
Definition holds (c r : loc) (cs rs : list F) (h : heap F) : Prop :=
  h !! c = Some cs ∧ h !! r = Some rs.

End Specs.

(** The terms of the two recurrences in binary64 and the checks of
    cell 7's errors at one index, for a value [x] of [3.**i]. *)
Definition p_term (i : Z) : float :=
  term (fdiv (of_int 5) (of_int 6)) (fdiv (of_int 1) (of_int 6)) (Z.to_nat i).
Definition q_term (i : Z) : float :=
  term (fdiv (of_int 5) (of_int 3)) (fdiv (of_int 4) (of_int 9)) (Z.to_nat i).

Definition diverges_at (i : Z) (x : float) : bool :=
  (frac_err (p_term i) (1 / x) <? frac_err (q_term i) (1 / x))%float.

Definition ends_apart (x : float) : bool :=
  ((1 <? frac_err (q_term 40) (1 / x)) &&
   (frac_err (p_term 40) (1 / x) <? 1e-6))%float.

(** One third, the root both recurrences share, and the exact sequence
    [(1/3)^k], [k = 0 .. n]. *)
Definition third : Qc := Q2Qc (1 # 3).
Definition third_powers (n : Z) : list Qc :=
  Qcpower third <$> seq 0 (Z.to_nat (n + 1)).

(** ** The loop on its own, and reading what a call returned *)

Section Loop.
Context {F : Type} `{Arith F}.

(** The loop of [prec] and [qrec] (lines 53-54 and 84-85) run on an
    array [p] that is already there. *)
Definition loop (c1 c2 : F) (p : loc) (n : Z) : M unit :=
  for_ (range 2 (n + 1)) (step c1 c2 p).

(** The sequence the recurrence defines from any two first elements
    [a] and [b]: [terms_from k] is the pair [(s k, s (k+1))]. *)
Fixpoint terms_from (a b c1 c2 : F) (k : nat) : F * F :=
  match k with
  | O => (a, b)
  | S k' => let '(x, y) := terms_from a b c1 c2 k' in
            (y, fsub (fmul c1 y) (fmul c2 x))
  end.
Definition term_from (a b c1 c2 : F) (k : nat) : F :=
  (terms_from a b c1 c2 k).1.

(** The array [d] once the loop has rewritten the indices below [k]. *)
Definition rewritten (a b c1 c2 : F) (d : list F) (k : nat) : list F :=
  (term_from a b c1 c2 <$> seq 0 k) ++ drop k d.

(** [rec(n)[i]]: one element of the array a call returns. *)
Definition item_of (rec : Z → M loc) (n i : Z) : M F :=
  p ← rec n; getitem p i.

End Loop.

(** The other roots of the two characteristic polynomials, and the
    solution of a recurrence with roots [r1] and [r2] that starts
    [a, b]. *)
Definition half : Qc := Q2Qc (1 # 2).
Definition four_thirds : Qc := Q2Qc (4 # 3).

Definition general (r1 r2 a b : Qc) (k : nat) : Qc :=
  ((b - a * r2) / (r1 - r2) * r1 ^ k + (a * r1 - b) / (r1 - r2) * r2 ^ k)%Qc.

(** The sequence that starts [1, 1/3 + δ]: the powers of [1/3] and a
    multiple of the branch that the root [r2] contributes. *)
Definition branch (r2 δ : Qc) (k : nat) : Qc :=
  (third ^ k + δ / (r2 - third) * (r2 ^ k - third ^ k))%Qc.

(** The power without rounding, for an exponent that is a natural number
    (the exponents [np.arange] supplies). *)
Definition pow_exact (x y : Qc) : Qc := (x ^ Z.to_nat (Qnum y))%Qc.

(** ** Floating-point errors and warnings

    A call also reports the floating-point errors of its float64
    operations.  NumPy clears the IEEE 754 status flags before an
    operation on scalars or a loop over arrays, reads them after it, and
    handles each flag that is set as [np.errstate] says.  At the default
    ([divide], [over] and [invalid] at 'warn', [under] at 'ignore') it
    issues a [RuntimeWarning] through Python's [warnings] module, which
    reads the warning filters and writes the warnings registry of the
    calling module and [sys.stderr]: state that all calls of a process
    share.  The value of the operation is the same with or without the
    warning, so the calls above are what is left of the calls below
    when the warnings are dropped. *)

Inductive fp_error := DivideByZero | Overflow | Invalid.

(** The NumPy functions that do the arithmetic of [*], [-], [/] and
    [**].  The message of a warning says which one set the flag
    ("overflow encountered in multiply"); for two scalars older
    versions of NumPy name the type instead ("double_scalars"). *)
Inductive ufunc := multiply | subtract | true_divide | power.

Inductive warning := RuntimeWarning (e : fp_error) (f : ufunc).

Record fpstatus := Status {
  divbyzero : bool; overflow : bool; invalid : bool
}.

Definition no_error : fpstatus := Status false false false.

Definition status_or (s t : fpstatus) : fpstatus :=
  Status (divbyzero s || divbyzero t) (overflow s || overflow t)
         (invalid s || invalid t).

(** The flags an operation with operands [x] and [y] and result [r]
    sets (IEEE 754, section 7; for [pow], C's Annex F).  Operands that
    are finite give an infinite result either exactly, at a pole
    (division by zero), or by rounding (overflow); a NaN that no
    operand brought in is an invalid operation ([0/0], [inf/inf],
    [0*inf], [inf-inf]). *)
Definition raised (f : ufunc) (x y r : float) : fpstatus :=
  let pole := match f with
              | true_divide => is_zero y
              | power => is_zero x
              | _ => false
              end in
  let finite := is_finite x && is_finite y in
  Status (finite && is_infinity r && pole)
         (finite && is_infinity r && negb pole)
         (is_nan r && negb (is_nan x || is_nan y)).

(** A loop over pairs of operands leaves the flags of all its
    elements. *)
Definition loop_status (f : ufunc) (op : float → float → float)
    (args : list (float * float)) : fpstatus :=
  foldr (λ xy, status_or (raised f xy.1 xy.2 (op xy.1 xy.2))) no_error args.

(** One warning for each flag that is set, in the order NumPy handles
    them. *)
Definition reported (f : ufunc) (s : fpstatus) : list warning :=
  (if divbyzero s then [RuntimeWarning DivideByZero f] else []) ++
  (if overflow s then [RuntimeWarning Overflow f] else []) ++
  (if invalid s then [RuntimeWarning Invalid f] else []).

(** The arrays, and the warnings issued so far, oldest first.  Whether
    an issued warning is printed is up to the filters and the registry,
    which are not modelled: the list is what the [warnings] module was
    handed. *)
Record world := World { arrays : heap float; warned : list warning }.

Definition W (A : Type) : Type := world → res A * world.

#[global] Instance W_ret : MRet W := λ A a w, (Ok a, w).
#[global] Instance W_bind : MBind W := λ A B f m w,
  match m w with
  | (Ok a, w') => f a w'
  | (Raise e, w') => (Raise e, w')
  end.

(** A computation on the arrays issues no warning. *)
Definition lift {A} (m : M (F:=float) A) : W A := λ w,
  let '(r, h) := m (arrays w) in (r, World h (warned w)).

Definition warn (ws : list warning) : W unit := λ w,
  (Ok tt, World (arrays w) (warned w ++ ws)).

Fixpoint for_w {A} (xs : list A) (body : A → W unit) : W unit :=
  match xs with
  | [] => mret tt
  | x :: xs' => body x ;; for_w xs' body
  end.

(** An operation on two float64 scalars. *)
Definition scalar (f : ufunc) (op : float → float → float)
    (x y : float) : W float :=
  warn (reported f (raised f x y (op x y))) ;;
  mret (op x y).

(** The pairs of elements that broadcasting puts together. *)
Definition operands (x y : list float) : list (float * float) :=
  if decide (length x = length y) then zip x y
  else match x, y with
       | [a], _ => pair a <$> y
       | _, [b] => (λ a, (a, b)) <$> x
       | _, _ => []
       end.

(** The element-wise operations: the flags are read when the loop is
    over and the result allocated.  [np.abs] sets none. *)
Definition np_div_w (x y : loc) : W loc :=
  a ← lift (load x);
  b ← lift (load y);
  t ← lift (np_div x y);
  warn (reported true_divide (loop_status true_divide fdiv (operands a b))) ;;
  mret t.

Definition np_rsub_w (c : float) (t : loc) : W loc :=
  d ← lift (load t);
  u ← lift (np_rsub c t);
  warn (reported subtract (loop_status subtract fsub (pair c <$> d))) ;;
  mret u.

Definition np_rdiv_w (c : float) (t : loc) : W loc :=
  d ← lift (load t);
  u ← lift (np_rdiv c t);
  warn (reported true_divide (loop_status true_divide fdiv (pair c <$> d))) ;;
  mret u.

Definition np_rpow_w {pw : Pow (F:=float)} (x : float) (n : list Z) : W loc :=
  t ← lift (np_rpow x n);
  warn (reported power (loop_status power fpow ((λ k, (x, of_int k)) <$> n))) ;;
  mret t.

(** [prec] and [qrec] with the warnings of their scalar operations, in
    Python's order of evaluation: [c1*p[j-1]], then [c2*p[j-2]], then
    the difference. *)
Definition prec_w (n : Z) : W loc :=
  p ← lift (np_zeros (n + 1));
  lift (setitem p 0 (of_int 1)) ;;
  lift (setitem p 1 (fdiv (of_int 1) (of_int 3))) ;;
  for_w (range 2 (n + 1)) (λ j,
    a ← lift (getitem p (j - 1));
    x ← scalar multiply fmul (fdiv (of_int 5) (of_int 6)) a;
    b ← lift (getitem p (j - 2));
    y ← scalar multiply fmul (fdiv (of_int 1) (of_int 6)) b;
    z ← scalar subtract fsub x y;
    lift (setitem p j z)) ;;
  mret p.

Definition qrec_w (n : Z) : W loc :=
  q ← lift (np_zeros (n + 1));
  lift (setitem q 0 (of_int 1)) ;;
  lift (setitem q 1 (fdiv (of_int 1) (of_int 3))) ;;
  for_w (range 2 (n + 1)) (λ j,
    a ← lift (getitem q (j - 1));
    x ← scalar multiply fmul (fdiv (of_int 5) (of_int 3)) a;
    b ← lift (getitem q (j - 2));
    y ← scalar multiply fmul (fdiv (of_int 4) (of_int 9)) b;
    z ← scalar subtract fsub x y;
    lift (setitem q j z)) ;;
  mret q.

Definition ErrorEvaluator_w (computed reference : loc) : W loc :=
  t ← np_div_w computed reference;
  u ← np_rsub_w (of_int 1) t;
  lift (np_abs u).

Definition ReferenceSequence_w {pw : Pow (F:=float)} (N : Z) : W loc :=
  let n := np_arange (N + 1) in
  t ← np_rpow_w (of_int 3) n;
  np_rdiv_w (of_int 1) t.

Definition cell7_w {pw : Pow (F:=float)} : W globals :=
  let N := 40 in
  p ← prec_w N;
  q ← qrec_w N;
  let n := np_arange (N + 1) in
  expected ← (t ← np_rpow_w (of_int 3) n; np_rdiv_w (of_int 1) t);
  perr ← ErrorEvaluator_w p expected;
  qerr ← ErrorEvaluator_w q expected;
  mret (Globals p q n expected perr qerr).

(** The body of the two loops, and the function both are instances
    of. *)
Definition step_w (c1 c2 : float) (p : loc) (j : Z) : W unit :=
  a ← lift (getitem p (j - 1));
  x ← scalar multiply fmul c1 a;
  b ← lift (getitem p (j - 2));
  y ← scalar multiply fmul c2 b;
  z ← scalar subtract fsub x y;
  lift (setitem p j z).

Definition recurrence_w (c1 c2 : float) (n : Z) : W loc :=
  p ← lift (np_zeros (n + 1));
  lift (setitem p 0 (of_int 1)) ;;
  lift (setitem p 1 (fdiv (of_int 1) (of_int 3))) ;;
  for_w (range 2 (n + 1)) (step_w c1 c2 p) ;;
  mret p.

(** The warnings of the turn [j = k + 2], which reads the terms [k + 1]
    and [k]; those of a call for [n]; those of the closed form; those of
    an evaluation of [computed] against [reference]. *)
Definition step_log (c1 c2 : float) (k : nat) : list warning :=
  let x := fmul c1 (term c1 c2 (S k)) in
  let y := fmul c2 (term c1 c2 k) in
  reported multiply (raised multiply c1 (term c1 c2 (S k)) x) ++
  reported multiply (raised multiply c2 (term c1 c2 k) y) ++
  reported subtract (raised subtract x y (fsub x y)).

Definition recurrence_log (c1 c2 : float) (n : Z) : list warning :=
  concat (step_log c1 c2 <$> seq 0 (Z.to_nat (n - 1))).

Definition reference_log {pw : Pow (F:=float)} (N : Z) : list warning :=
  reported power (loop_status power fpow
    ((λ k, (of_int 3, of_int k)) <$> range 0 (N + 1))) ++
  reported true_divide (loop_status true_divide fdiv
    (pair (of_int 1) <$> powers N)).

Definition error_log (computed reference : list float) : list warning :=
  match broadcast fdiv computed reference with
  | Ok d =>
      reported true_divide
        (loop_status true_divide fdiv (operands computed reference)) ++
      reported subtract (loop_status subtract fsub (pair (of_int 1) <$> d))
  | Raise _ => []
  end.

(** A call with warnings [mw] is the call [m] on the arrays, and issues
    the warnings [log], whatever was issued before. *)
Definition runs_as (pre : heap float → Prop) (mw : W loc) (m : M loc)
    (log : list warning) : Prop :=
  ∀ w, pre (arrays w) →
    mw w = ((m (arrays w)).1, World (m (arrays w)).2 (warned w ++ log)).

(** * Proofs *)

Section Monad.
Context {F : Type} `{Arith F}.
Implicit Types h : heap F.

Lemma bind_run {A B} (m : M A) (f : A → M B) h a h' :
  m h = (Ok a, h') → (m ≫= f) h = f a h'.
Proof. intros E. unfold mbind, M_bind. by rewrite E. Qed.

Lemma bind_raise {A B} (m : M A) (f : A → M B) h e h' :
  m h = (Raise e, h') → (m ≫= f) h = (Raise e, h').
Proof. intros E. unfold mbind, M_bind. by rewrite E. Qed.

Lemma load_run h p d : h !! p = Some d → load p h = (Ok d, h).
Proof. intros E. unfold load. by rewrite E. Qed.

Lemma index_in (len : nat) i :
  0 ≤ i < Z.of_nat len → index len i = Some (Z.to_nat i).
Proof.
  intros Hi. unfold index.
  destruct (decide (i < 0)) as [?|_]; [lia|].
  by destruct (decide (0 ≤ i < Z.of_nat len)).
Qed.

Lemma index_out (len : nat) i : Z.of_nat len ≤ i → index len i = None.
Proof.
  intros Hi. unfold index.
  destruct (decide (i < 0)) as [?|_]; [lia|].
  destruct (decide (0 ≤ i < Z.of_nat len)); [lia|done].
Qed.

Lemma getitem_run h p d i v :
  h !! p = Some d → 0 ≤ i → d !! Z.to_nat i = Some v →
  getitem p i h = (Ok v, h).
Proof.
  intros Hp Hi Hv. unfold getitem.
  rewrite (bind_run _ _ _ _ _ (load_run _ _ _ Hp)).
  apply lookup_lt_Some in Hv as Hlt.
  rewrite index_in by lia. by rewrite Hv.
Qed.

Lemma setitem_run h p d i v :
  h !! p = Some d → 0 ≤ i < Z.of_nat (length d) →
  setitem p i v h = (Ok tt, <[p := <[Z.to_nat i := v]> d]> h).
Proof.
  intros Hp Hi. unfold setitem.
  rewrite (bind_run _ _ _ _ _ (load_run _ _ _ Hp)).
  by rewrite index_in.
Qed.

Lemma setitem_out h p d i v :
  h !! p = Some d → Z.of_nat (length d) ≤ i →
  setitem p i v h = (Raise IndexError, h).
Proof.
  intros Hp Hi. unfold setitem.
  rewrite (bind_run _ _ _ _ _ (load_run _ _ _ Hp)).
  by rewrite index_out.
Qed.

Lemma np_zeros_run h n :
  0 ≤ n →
  np_zeros n h = (Ok (length h), h ++ [replicate (Z.to_nat n) (of_int 0)]).
Proof. intros Hn. unfold np_zeros. by destruct (decide (n < 0)); [lia|]. Qed.

Lemma np_zeros_neg h n : n < 0 → np_zeros n h = (Raise ValueError, h).
Proof. intros Hn. unfold np_zeros. by destruct (decide (n < 0)). Qed.

(** The newest array of a heap, and storing into it. *)
Lemma lookup_last h d : (h ++ [d]) !! length h = Some d.
Proof. by rewrite lookup_app_r, Nat.sub_diag. Qed.

Lemma insert_last h d d' : <[length h := d']> (h ++ [d]) = h ++ [d'].
Proof. by rewrite insert_app_r_alt, Nat.sub_diag. Qed.

End Monad.

(** ** The recurrences refine the sequence they define *)

Section Recurrence.
Context {F : Type} `{Arith F}.
Implicit Types h : heap F.
Variables c1 c2 : F.

Lemma prec_recurrence n :
  prec n = recurrence (fdiv (of_int 5) (of_int 6)) (fdiv (of_int 1) (of_int 6)) n.
Proof. reflexivity. Qed.

Lemma qrec_recurrence n :
  qrec n = recurrence (fdiv (of_int 5) (of_int 3)) (fdiv (of_int 4) (of_int 9)) n.
Proof. reflexivity. Qed.

Lemma term_SS k :
  term c1 c2 (S (S k)) =
  fsub (fmul c1 (term c1 c2 (S k))) (fmul c2 (term c1 c2 k)).
Proof.
  unfold term. simpl. destruct (terms c1 c2 k) as [a b]. reflexivity.
Qed.

Lemma filled_length len k : (k ≤ len)%nat → length (filled c1 c2 len k) = len.
Proof.
  intros Hk. unfold filled.
  rewrite length_app, length_fmap, length_seq, length_replicate. lia.
Qed.

Lemma filled_lookup len k i :
  (i < k)%nat → filled c1 c2 len k !! i = Some (term c1 c2 i).
Proof.
  intros Hi. unfold filled.
  rewrite lookup_app_l by (rewrite length_fmap, length_seq; lia).
  rewrite list_lookup_fmap, lookup_seq_lt by lia. reflexivity.
Qed.

Lemma filled_step len k :
  (k < len)%nat →
  <[k := term c1 c2 k]> (filled c1 c2 len k) = filled c1 c2 len (S k).
Proof.
  intros Hk. unfold filled.
  rewrite insert_app_r_alt by (rewrite length_fmap, length_seq; lia).
  rewrite length_fmap, length_seq, Nat.sub_diag.
  replace (len - k)%nat with (S (len - S k)) by lia.
  rewrite seq_S, fmap_app, <- app_assoc. reflexivity.
Qed.

Lemma filled_full len : filled c1 c2 len len = term c1 c2 <$> seq 0 len.
Proof. unfold filled. by rewrite Nat.sub_diag, app_nil_r. Qed.

(** One turn of the loop at [j = k] writes the next term. *)
Lemma step_run len k h p :
  (2 ≤ k < len)%nat → h !! p = Some (filled c1 c2 len k) →
  step c1 c2 p (Z.of_nat k) h = (Ok tt, <[p := filled c1 c2 len (S k)]> h).
Proof.
  intros Hk Hp. unfold step.
  destruct k as [|[|k]]; [lia..|].
  erewrite bind_run; cycle 1.
  { eapply getitem_run; [done|lia|]. apply filled_lookup. lia. }
  erewrite bind_run; cycle 1.
  { eapply getitem_run; [done|lia|]. apply filled_lookup. lia. }
  erewrite setitem_run; [|done|rewrite filled_length; lia].
  replace (Z.to_nat (Z.of_nat (S (S k)) - 1)) with (S k) by lia.
  replace (Z.to_nat (Z.of_nat (S (S k)) - 2)) with k by lia.
  rewrite Nat2Z.id, <- term_SS, filled_step by lia. reflexivity.
Qed.

(** The loop invariant: entering the turn [j = k], the array is
    [filled len k]. *)
Lemma loop_run len p m : ∀ k h,
  (2 ≤ k)%nat → (k + m = len)%nat → h !! p = Some (filled c1 c2 len k) →
  for_ (seqZ (Z.of_nat k) (Z.of_nat m)) (step c1 c2 p) h =
  (Ok tt, <[p := filled c1 c2 len len]> h).
Proof.
  induction m as [|m IH]; intros k h Hk Hlen Hp.
  - replace k with len in * by lia. simpl.
    rewrite list_insert_id by done. reflexivity.
  - rewrite seqZ_cons by lia. simpl.
    erewrite bind_run; [|apply (step_run len); [lia|done]].
    replace (Z.succ (Z.of_nat k)) with (Z.of_nat (S k)) by lia.
    replace (Z.pred (Z.of_nat (S m))) with (Z.of_nat m) by lia.
    rewrite IH; [|lia|lia|].
    + by rewrite list_insert_insert_eq.
    + apply list_lookup_insert_eq. by eapply lookup_lt_Some.
Qed.

(** For [n >= 1] the call returns a new array that holds the terms
    [0 .. n], and changes no other. *)
Lemma recurrence_run n h :
  1 ≤ n →
  recurrence c1 c2 n h =
  (Ok (length h), h ++ [term c1 c2 <$> seq 0 (Z.to_nat (n + 1))]).
Proof.
  intros Hn. unfold recurrence.
  erewrite bind_run; [|apply np_zeros_run; lia].
  destruct (Z.to_nat (n + 1)) as [|[|len]] eqn:Elen; [lia..|].
  erewrite bind_run; cycle 1.
  { eapply setitem_run; [apply lookup_last|].
    rewrite length_replicate. lia. }
  rewrite insert_last.
  erewrite bind_run; cycle 1.
  { eapply setitem_run; [apply lookup_last|].
    rewrite length_insert, length_replicate. lia. }
  rewrite insert_last.
  unfold range. replace (n + 1 - 2) with (Z.of_nat len) by lia.
  erewrite bind_run; cycle 1.
  { apply (loop_run (S (S len)) (length h) len 2%nat); [lia|lia|].
    rewrite lookup_last. f_equal. unfold filled.
    replace (S (S len) - 2)%nat with len by lia. reflexivity. }
  rewrite insert_last, filled_full. reflexivity.
Qed.

(** For [n <= 0] it raises: the array is too short for the two stores
    that come before the loop, or cannot be allocated at all. *)
Lemma recurrence_0 h :
  recurrence c1 c2 0 h = (Raise IndexError, h ++ [[of_int 1]]).
Proof.
  unfold recurrence.
  erewrite bind_run; [|apply np_zeros_run; lia].
  erewrite bind_run; cycle 1.
  { eapply setitem_run; [apply lookup_last|]. simpl. lia. }
  rewrite insert_last.
  erewrite bind_raise; [reflexivity|].
  erewrite setitem_out; [reflexivity|apply lookup_last|].
  simpl. lia.
Qed.

Lemma recurrence_minus_1 h :
  recurrence c1 c2 (-1) h = (Raise IndexError, h ++ [[]]).
Proof.
  unfold recurrence.
  erewrite bind_run; [|apply np_zeros_run; lia].
  erewrite bind_raise; [reflexivity|].
  erewrite setitem_out; [reflexivity|apply lookup_last|]. simpl. lia.
Qed.

Lemma recurrence_neg n h :
  n < -1 → recurrence c1 c2 n h = (Raise ValueError, h).
Proof.
  intros Hn. unfold recurrence.
  erewrite bind_raise; [reflexivity|]. apply np_zeros_neg. lia.
Qed.

Lemma terms_obey n :
  1 ≤ n → obeys c1 c2 n (term c1 c2 <$> seq 0 (Z.to_nat (n + 1))).
Proof.
  intros Hn. unfold obeys.
  assert (Hlk : ∀ i : nat, (i < Z.to_nat (n + 1))%nat →
    (term c1 c2 <$> seq 0 (Z.to_nat (n + 1))) !! i = Some (term c1 c2 i)).
  { intros i Hi. by rewrite list_lookup_fmap, lookup_seq_lt. }
  split; [by rewrite length_fmap, length_seq|].
  split; [by rewrite Hlk by lia|].
  split; [by rewrite Hlk by lia|].
  intros j Hj. exists (term c1 c2 (Z.to_nat (j - 1))), (term c1 c2 (Z.to_nat (j - 2))).
  rewrite !Hlk by lia. split; [done|]. split; [done|].
  replace (Z.to_nat j) with (S (S (Z.to_nat (j - 2)))) by lia.
  replace (Z.to_nat (j - 1)) with (S (Z.to_nat (j - 2))) by lia.
  by rewrite term_SS.
Qed.

End Recurrence.

Section Calls.
Context {F : Type} `{Arith F}.
Implicit Types h : heap F.

(** C1: for [n >= 1] both functions return a new array of length [n+1]
    that starts [1, 1/3] and satisfies its recurrence at every index
    [2..n]: coefficients [5/6, 1/6] for [prec], [5/3, 4/9] for [qrec]. *)
Theorem recurrences_correct (n : Z) (h : heap F) :
  1 ≤ n →
  (∃ s, prec n h = (Ok (length h), h ++ [s]) ∧
        obeys (fdiv (of_int 5) (of_int 6)) (fdiv (of_int 1) (of_int 6)) n s) ∧
  (∃ s, qrec n h = (Ok (length h), h ++ [s]) ∧
        obeys (fdiv (of_int 5) (of_int 3)) (fdiv (of_int 4) (of_int 9)) n s).
Proof.
  intros Hn. rewrite prec_recurrence, qrec_recurrence.
  split; eexists; (split; [by apply recurrence_run|by apply terms_obey]).
Qed.

(** C3, as the code has it: for [n < 0] both functions raise and return
    nothing.  For [n <= -2] it is the [ValueError] of [np.zeros] (Python's
    invalid-argument exception), raised before anything is allocated;
    for [n = -1] an empty array is allocated and the first store raises
    [IndexError]. *)
Theorem negative_n_raises (n : Z) (h : heap F) :
  n < 0 →
  prec n h = (if decide (n = -1) then (Raise IndexError, h ++ [[]])
              else (Raise ValueError, h)) ∧
  qrec n h = (if decide (n = -1) then (Raise IndexError, h ++ [[]])
              else (Raise ValueError, h)).
Proof.
  intros Hn. rewrite prec_recurrence, qrec_recurrence.
  destruct (decide (n = -1)) as [->|H1].
  - split; apply recurrence_minus_1.
  - split; apply recurrence_neg; lia.
Qed.

End Calls.

(** ** Element-wise operations and the calls of cell 7 *)

Section Elementwise.
Context {F : Type} `{Arith F}.
Implicit Types h : heap F.

Lemma broadcast_same f (x y : list F) :
  length x = length y → broadcast f x y = Ok (zip_with f x y).
Proof. intros E. unfold broadcast. by destruct (decide _). Qed.

Lemma broadcast_mismatch f (x y : list F) :
  length x ≠ length y → length x ≠ 1%nat → length y ≠ 1%nat →
  broadcast f x y = Raise ValueError.
Proof.
  intros E Hx Hy. unfold broadcast. destruct (decide _); [done|].
  destruct x as [|a [|a' x]], y as [|b [|b' y]]; simpl in *; done.
Qed.

(** A length-1 operand never fails to broadcast. *)
Lemma broadcast_stretch f (x y : list F) :
  length x = 1%nat ∨ length y = 1%nat → ∃ d, broadcast f x y = Ok d.
Proof.
  intros Hxy. unfold broadcast. destruct (decide _); [by eexists|].
  destruct x as [|a [|a' x]], y as [|b [|b' y]]; simpl in *;
    destruct Hxy; try done; by eexists.
Qed.

Lemma alloc_run h (d : list F) : alloc d h = (Ok (length h), h ++ [d]).
Proof. reflexivity. Qed.

Lemma np_div_run h x y a b d :
  h !! x = Some a → h !! y = Some b → broadcast fdiv a b = Ok d →
  np_div x y h = (Ok (length h), h ++ [d]).
Proof.
  intros Hx Hy Hd. unfold np_div.
  rewrite (bind_run _ _ _ _ _ (load_run _ _ _ Hx)).
  rewrite (bind_run _ _ _ _ _ (load_run _ _ _ Hy)).
  by rewrite Hd.
Qed.

Lemma np_div_raise h x y a b e :
  h !! x = Some a → h !! y = Some b → broadcast fdiv a b = Raise e →
  np_div x y h = (Raise e, h).
Proof.
  intros Hx Hy Hd. unfold np_div.
  rewrite (bind_run _ _ _ _ _ (load_run _ _ _ Hx)).
  rewrite (bind_run _ _ _ _ _ (load_run _ _ _ Hy)).
  by rewrite Hd.
Qed.

Lemma np_rsub_run h c t d :
  h !! t = Some d → np_rsub c t h = (Ok (length h), h ++ [fsub c <$> d]).
Proof.
  intros Ht. unfold np_rsub.
  by rewrite (bind_run _ _ _ _ _ (load_run _ _ _ Ht)).
Qed.

Lemma np_rdiv_run h c t d :
  h !! t = Some d → np_rdiv c t h = (Ok (length h), h ++ [fdiv c <$> d]).
Proof.
  intros Ht. unfold np_rdiv.
  by rewrite (bind_run _ _ _ _ _ (load_run _ _ _ Ht)).
Qed.

Lemma np_abs_run h t d :
  h !! t = Some d → np_abs t h = (Ok (length h), h ++ [fabs <$> d]).
Proof.
  intros Ht. unfold np_abs.
  by rewrite (bind_run _ _ _ _ _ (load_run _ _ _ Ht)).
Qed.

Lemma ErrorEvaluator_run h c r cs rs d :
  holds c r cs rs h → broadcast fdiv cs rs = Ok d →
  ErrorEvaluator c r h = (Ok (length h + 2)%nat, h ++ err_arrays d).
Proof.
  intros [Hc Hr] Hd. unfold ErrorEvaluator.
  rewrite (bind_run _ _ _ _ _ (np_div_run _ _ _ _ _ _ Hc Hr Hd)).
  rewrite (bind_run _ _ _ _ _ (np_rsub_run _ _ _ _ (lookup_last _ _))).
  rewrite length_app. simpl length.
  replace (length h + 1)%nat with (length (h ++ [d])) at 1
    by (rewrite length_app; simpl; lia).
  rewrite <- (app_assoc h [d]). simpl.
  replace (h ++ [d; fsub (of_int 1) <$> d])
    with ((h ++ [d]) ++ [fsub (of_int 1) <$> d]) by by rewrite <- app_assoc.
  erewrite np_abs_run; cycle 1.
  { replace (length h + 1)%nat with (length (h ++ [d]))
      by (rewrite length_app; simpl; lia).
    apply lookup_last. }
  rewrite !length_app. simpl length. rewrite <- !app_assoc. simpl.
  do 2 f_equal. lia.
Qed.

Lemma ErrorEvaluator_raise h c r cs rs e :
  holds c r cs rs h → broadcast fdiv cs rs = Raise e →
  ErrorEvaluator c r h = (Raise e, h).
Proof.
  intros [Hc Hr] Hd. unfold ErrorEvaluator.
  by rewrite (bind_raise _ _ _ _ _ (np_div_raise _ _ _ _ _ _ Hc Hr Hd)).
Qed.

(** With equal lengths the last array is the series of fractional
    errors, index by index. *)
Lemma errors_length (cs rs : list F) :
  length cs = length rs →
  length (fabs <$> (fsub (of_int 1) <$> zip_with fdiv cs rs)) = length rs.
Proof. intros E. rewrite !length_fmap, length_zip_with. lia. Qed.

Lemma errors_lookup (cs rs : list F) i a b :
  cs !! i = Some a → rs !! i = Some b →
  (fabs <$> (fsub (of_int 1) <$> zip_with fdiv cs rs)) !! i =
  Some (frac_err a b).
Proof.
  intros Ha Hb. rewrite !list_lookup_fmap, lookup_zip_with, Ha. simpl.
  by rewrite Hb.
Qed.

Context {pw : Pow (F:=F)}.

Lemma ReferenceSequence_run h N :
  ReferenceSequence N h =
  (Ok (length h + 1)%nat, h ++ [powers N; closed_form N]).
Proof.
  unfold ReferenceSequence, np_rpow, np_arange.
  rewrite (bind_run _ _ _ _ _ (alloc_run _ _)).
  rewrite (np_rdiv_run _ _ _ _ (lookup_last _ _)).
  rewrite length_app, <- app_assoc. reflexivity.
Qed.

Lemma closed_form_length N : 0 ≤ N → length (closed_form N) = Z.to_nat (N + 1).
Proof.
  intros HN. unfold closed_form, powers, range.
  rewrite !length_fmap, length_seqZ. f_equal. lia.
Qed.

Lemma closed_form_lookup N k :
  0 ≤ k ≤ N →
  closed_form N !! Z.to_nat k =
  Some (fdiv (of_int 1) (fpow (of_int 3) (of_int k))).
Proof.
  intros Hk. unfold closed_form, powers, range.
  rewrite !list_lookup_fmap, lookup_seqZ_lt by lia. simpl.
  by replace (0 + Z.of_nat (Z.to_nat k)) with k by lia.
Qed.

End Elementwise.

(** ** Calls that touch nothing but what they allocate *)

Section Pure.
Context {F : Type} `{Arith F}.
Implicit Types h : heap F.

Lemma recurrence_pure c1 c2 n : pure_call anywhere (recurrence c1 c2 n).
Proof.
  destruct (decide (1 ≤ n)) as [Hn|Hn].
  { exists [term c1 c2 <$> seq 0 (Z.to_nat (n + 1))], (Ok 0%nat).
    split; [intros i [= <-]; simpl; lia|].
    intros h _. rewrite Nat.add_0_r. by apply recurrence_run. }
  destruct (decide (n = 0)) as [->|H0].
  { exists [[of_int 1]], (Raise IndexError). split; [done|].
    intros h _. apply recurrence_0. }
  destruct (decide (n = -1)) as [->|H1].
  { exists [[]], (Raise IndexError). split; [done|].
    intros h _. apply recurrence_minus_1. }
  exists [], (Raise ValueError). split; [done|]. intros h _.
  rewrite app_nil_r. apply recurrence_neg. lia.
Qed.

Lemma ReferenceSequence_pure {pw : Pow (F:=F)} N :
  pure_call anywhere (ReferenceSequence N).
Proof.
  exists [powers N; closed_form N], (Ok 1%nat).
  split; [intros i [= <-]; simpl; lia|]. intros h _.
  apply ReferenceSequence_run.
Qed.

Lemma ErrorEvaluator_pure c r cs rs :
  pure_call (holds c r cs rs) (ErrorEvaluator c r).
Proof.
  destruct (broadcast fdiv cs rs) as [d|e] eqn:Hd.
  - exists (err_arrays d), (Ok 2%nat).
    split; [intros i [= <-]; simpl; lia|]. intros h Hh.
    by eapply ErrorEvaluator_run.
  - exists [], (Raise e). split; [done|]. intros h Hh. rewrite app_nil_r.
    by eapply ErrorEvaluator_raise.
Qed.

Lemma holds_extend c r cs rs h new :
  holds c r cs rs h → holds c r cs rs (h ++ new).
Proof. intros [Hc Hr]. split; by apply lookup_app_l_Some. Qed.

Lemma pure_call_twice (pre : heap F → Prop) (m : M loc) :
  (∀ h new, pre h → pre (h ++ new)) → pure_call pre m → same_again pre m.
Proof.
  intros Hext (new & r & Hlt & Hm) h Hh.
  pose proof (Hm h Hh) as E1. pose proof (Hm (h ++ new) (Hext _ _ Hh)) as E2.
  eexists _, _, _, _. split; [exact E1|]. split; [exact E2|]. split.
  - destruct r as [i|e]; [|done].
    specialize (Hlt i eq_refl).
    split; [rewrite length_app; lia|].
    rewrite (lookup_app_r h new) by lia.
    rewrite (lookup_app_r (h ++ new) new) by lia.
    rewrite <- app_assoc, (lookup_app_r h (new ++ new)) by lia.
    rewrite length_app.
    replace (length h + length new + i - (length h + length new))%nat
      with i by lia.
    replace (length h + i - length h)%nat with i by lia.
    split; [by apply lookup_lt_is_Some|]. split; [done|].
    by rewrite lookup_app_l by lia.
  - intros l d Hl. by do 2 apply lookup_app_l_Some.
Qed.

Lemma pure_anywhere (m : M (F:=F) loc) :
  pure_call anywhere m → pure_call anywhere m ∧ same_again anywhere m.
Proof. intros Hm. split; [done|]. by apply pure_call_twice. Qed.

(** On the arrays each of the four operations is a function of its
    input.  Whatever the heap it runs in, a call of [prec], [qrec] or
    [ReferenceSequence] leaves every existing array as it was, allocates
    the same new arrays and ends the same way ([pure_call]); so does
    [ErrorEvaluator] in every heap where its two arguments refer to the
    same elements.  A second call returns, in a new array, the elements
    the first one returned ([same_again]). *)
Lemma operations_pure {pw : Pow (F:=F)} :
  (∀ n, pure_call anywhere (prec n) ∧ same_again anywhere (prec n)) ∧
  (∀ n, pure_call anywhere (qrec n) ∧ same_again anywhere (qrec n)) ∧
  (∀ N, pure_call anywhere (ReferenceSequence N) ∧
        same_again anywhere (ReferenceSequence N)) ∧
  (∀ c r cs rs, pure_call (holds c r cs rs) (ErrorEvaluator c r) ∧
                same_again (holds c r cs rs) (ErrorEvaluator c r)).
Proof.
  split; [intros n; rewrite prec_recurrence;
          apply pure_anywhere, recurrence_pure|].
  split; [intros n; rewrite qrec_recurrence;
          apply pure_anywhere, recurrence_pure|].
  split; [intros N; apply pure_anywhere, ReferenceSequence_pure|].
  intros c r cs rs. split; [apply ErrorEvaluator_pure|].
  apply pure_call_twice; [apply holds_extend|apply ErrorEvaluator_pure].
Qed.

End Pure.

(** ** Chaining calls

    The same run lemmas, for a heap written as the arrays [h] that were
    there at the start followed by the arrays [new] allocated since; a
    reference into [new] is [length h + k]. *)

Section Chain.
Context {F : Type} `{Arith F} {pw : Pow (F:=F)}.
Implicit Types h new : heap F.

Lemma lookup_new h new k : (h ++ new) !! (length h + k)%nat = new !! k.
Proof. rewrite lookup_app_r by lia. f_equal. lia. Qed.

Lemma recurrence_run_at c1 c2 n h new :
  1 ≤ n →
  recurrence c1 c2 n (h ++ new) =
  (Ok (length h + length new)%nat,
   h ++ new ++ [term c1 c2 <$> seq 0 (Z.to_nat (n + 1))]).
Proof.
  intros Hn. rewrite recurrence_run, length_app, <- app_assoc by done.
  reflexivity.
Qed.

Lemma ReferenceSequence_run_at N h new :
  ReferenceSequence N (h ++ new) =
  (Ok (length h + (length new + 1))%nat,
   h ++ new ++ [powers N; closed_form N]).
Proof.
  rewrite ReferenceSequence_run, length_app, <- app_assoc. do 2 f_equal. lia.
Qed.

Lemma ErrorEvaluator_run_at h new (c r : nat) cs rs :
  new !! c = Some cs → new !! r = Some rs → length cs = length rs →
  ErrorEvaluator (length h + c)%nat (length h + r)%nat (h ++ new) =
  (Ok (length h + (length new + 2))%nat,
   h ++ new ++ err_arrays (zip_with fdiv cs rs)).
Proof.
  intros Hc Hr Hlen.
  erewrite ErrorEvaluator_run;
    [|split; rewrite lookup_new; eassumption|by apply broadcast_same].
  rewrite length_app, <- app_assoc. do 2 f_equal. lia.
Qed.

(** The series of errors is the last of the arrays of an evaluation. *)
Lemma err_arrays_last (cs rs : list F) :
  err_arrays (zip_with fdiv cs rs) !! 2%nat =
  Some (fabs <$> (fsub (of_int 1) <$> zip_with fdiv cs rs)).
Proof. reflexivity. Qed.

Lemma error_series_run c1 c2 n h :
  1 ≤ n →
  error_series (recurrence c1 c2) n h =
  (Ok (length h + 5)%nat,
   h ++ [term c1 c2 <$> seq 0 (Z.to_nat (n + 1)); powers n; closed_form n]
     ++ err_arrays (zip_with fdiv (term c1 c2 <$> seq 0 (Z.to_nat (n + 1)))
                                 (closed_form n))).
Proof.
  intros Hn. unfold error_series.
  rewrite <- (app_nil_r h) at 1.
  erewrite bind_run; [|by apply recurrence_run_at].
  erewrite bind_run; [|by apply ReferenceSequence_run_at].
  simpl length. simpl app.
  change (0 + 1 + 1)%nat with 2%nat.
  erewrite ErrorEvaluator_run_at; [reflexivity|reflexivity|reflexivity|].
  rewrite closed_form_length, length_fmap, length_seq by lia. reflexivity.
Qed.

(** What cell 7 leaves: its six names, and ten new arrays. *)
Lemma cell7_run h :
  let P := term (fdiv (of_int 5) (of_int 6)) (fdiv (of_int 1) (of_int 6))
             <$> seq 0 41 in
  let Q := term (fdiv (of_int 5) (of_int 3)) (fdiv (of_int 4) (of_int 9))
             <$> seq 0 41 in
  cell7 h =
  (Ok (Globals (length h + 0)%nat (length h + 1)%nat (range 0 41)
               (length h + 3)%nat (length h + 6)%nat (length h + 9)%nat),
   h ++ [P; Q; powers 40; closed_form 40]
     ++ err_arrays (zip_with fdiv P (closed_form 40))
     ++ err_arrays (zip_with fdiv Q (closed_form 40))).
Proof.
  intros P Q. unfold cell7.
  rewrite prec_recurrence, qrec_recurrence.
  rewrite <- (app_nil_r h) at 1.
  erewrite bind_run; [|apply recurrence_run_at; lia].
  erewrite bind_run; [|apply recurrence_run_at; lia].
  change (np_rpow (of_int 3) (np_arange (40 + 1)) ≫=
          (λ t, np_rdiv (of_int 1) t)) with (ReferenceSequence 40).
  erewrite bind_run; [|apply ReferenceSequence_run_at].
  simpl length. simpl app.
  assert (Hlen : ∀ c1 c2, length (term c1 c2 <$> seq 0 (Z.to_nat (40 + 1)))
                          = length (closed_form 40)).
  { intros. rewrite closed_form_length, length_fmap, length_seq by lia. done. }
  change (0 + 1 + 1 + 1)%nat with 3%nat.
  erewrite bind_run; cycle 1.
  { apply (ErrorEvaluator_run_at h _ 0 3); [reflexivity|reflexivity|].
    apply Hlen. }
  simpl length. simpl app.
  change (0 + 1)%nat with 1%nat.
  erewrite bind_run; cycle 1.
  { apply (ErrorEvaluator_run_at h _ 1 3); [reflexivity|reflexivity|].
    apply Hlen. }
  reflexivity.
Qed.

End Chain.

(** ** binary64 *)

Section Binary64.
Implicit Types h : heap float.
Implicit Types x y z : float.
Open Scope float_scope.

Lemma frac_err_float x y : frac_err x y = abs (1 - x / y).
Proof. reflexivity. Qed.

(** [abs] never returns a negative number: it returns NaN (on NaN) or a
    number that compares [>= 0]. *)
Lemma abs_not_negative x : (abs x <? 0) = false.
Proof.
  rewrite FloatAxioms.ltb_spec, abs_spec.
  destruct (Prim2SF x) as [s|s| |s m e]; reflexivity.
Qed.

Lemma abs_nan_or_nonneg x : abs x = nan ∨ (0 <=? abs x) = true.
Proof.
  destruct (Prim2SF x) as [s|s| |s m e] eqn:E.
  1, 2, 4: right; rewrite FloatAxioms.leb_spec, abs_spec, E; reflexivity.
  left. apply Prim2SF_inj. rewrite abs_spec, E. reflexivity.
Qed.

(** Division by a zero raises nothing: the quotient is an infinity, or
    NaN when the numerator is zero or NaN. *)
Lemma div_by_zero x z :
  (z =? 0) = true → x / z = infinity ∨ x / z = neg_infinity ∨ x / z = nan.
Proof.
  intros Hz. rewrite FloatAxioms.eqb_spec in Hz.
  assert (∃ s, Prim2SF z = S754_zero s) as [sz Ez].
  { destruct (Prim2SF z) as [s|[]| |[] m e]; try discriminate. by exists s. }
  rewrite <- (SF2Prim_Prim2SF (x / z)), div_spec, Ez.
  destruct (Prim2SF x) as [s|s| |s m e]; destruct sz; try destruct s;
    cbn; auto.
Qed.

Lemma frac_err_zero x z :
  (z =? 0) = true → frac_err x z = infinity ∨ frac_err x z = nan.
Proof.
  intros Hz. rewrite frac_err_float.
  destruct (div_by_zero x z Hz) as [-> | [-> | ->]]; auto.
Qed.

(** C2, as the code has it: for two arrays of equal length the call
    returns a new array of that length, leaves the others as they were,
    and the element at every index is [|1 - computed[i]/reference[i]|] in
    binary64.  An element is never negative; it is NaN, and so not
    [>= 0], when the quotient is NaN.  (The condition on the reference is
    the specification's; the proof does not use it.) *)
Theorem ErrorEvaluator_correct h c r cs rs :
  holds c r cs rs h → length cs = length rs →
  Forall (λ z, (z =? 0) = false) rs →
  ∃ l h' e, ErrorEvaluator c r h = (Ok l, h') ∧
    h !! l = None ∧ h' !! l = Some e ∧
    (∀ k d, h !! k = Some d → h' !! k = Some d) ∧
    length e = length cs ∧
    ∀ i a b, cs !! i = Some a → rs !! i = Some b →
      ∃ v, e !! i = Some v ∧ v = abs (1 - a / b) ∧
           (v <? 0) = false ∧ (v = nan ∨ (0 <=? v) = true).
Proof.
  intros Hh Hlen _.
  exists (length h + 2)%nat, (h ++ err_arrays (zip_with fdiv cs rs)).
  eexists. split; [eapply ErrorEvaluator_run; [done|by apply broadcast_same]|].
  split; [apply lookup_ge_None; lia|].
  split; [rewrite lookup_new; apply err_arrays_last|].
  split; [intros k d Hk; by apply lookup_app_l_Some|].
  split; [rewrite errors_length; done|].
  intros i a b Ha Hb. eexists. split; [by apply errors_lookup|].
  rewrite frac_err_float.
  split; [done|]. split; [apply abs_not_negative|apply abs_nan_or_nonneg].
Qed.

(** C5, as the code has it.  Two arrays whose lengths differ raise
    [ValueError], before any array is allocated, when neither length is
    1; a length-1 array is broadcast against the other.  A zero in the
    reference raises nothing: the error at its index is infinite or NaN. *)
Theorem ErrorEvaluator_errors h c r cs rs :
  holds c r cs rs h →
  (length cs ≠ length rs → length cs ≠ 1%nat → length rs ≠ 1%nat →
     ErrorEvaluator c r h = (Raise ValueError, h)) ∧
  (length cs = 1%nat ∨ length rs = 1%nat →
     ∃ d, ErrorEvaluator c r h = (Ok (length h + 2)%nat, h ++ err_arrays d)) ∧
  (length cs = length rs →
     ∃ e, ErrorEvaluator c r h =
            (Ok (length h + 2)%nat, h ++ err_arrays (zip_with fdiv cs rs)) ∧
          err_arrays (zip_with fdiv cs rs) !! 2%nat = Some e ∧
          ∀ i a z, cs !! i = Some a → rs !! i = Some z → (z =? 0) = true →
            e !! i = Some infinity ∨ e !! i = Some nan).
Proof.
  intros Hh. split; [|split].
  - intros Hne Hc Hr. eapply ErrorEvaluator_raise; [done|].
    by apply broadcast_mismatch.
  - intros H1. destruct (broadcast_stretch fdiv cs rs H1) as [d Hd].
    exists d. by eapply ErrorEvaluator_run.
  - intros Hlen. eexists.
    split; [eapply ErrorEvaluator_run; [done|by apply broadcast_same]|].
    split; [apply err_arrays_last|].
    intros i a z Ha Hz Hz0. rewrite (errors_lookup _ _ _ _ _ Ha Hz).
    destruct (frac_err_zero a z Hz0) as [-> | ->]; auto.
Qed.

(** C4 at the failing input: [prec(0)] and [qrec(0)] store [p[0] = 1] in
    an array of one element and raise [IndexError] at [p[1] = 1./3]; no
    array is returned. *)
Theorem recurrences_at_0 h :
  prec 0 h = (Raise IndexError, h ++ [[1]]) ∧
  qrec 0 h = (Raise IndexError, h ++ [[1]]).
Proof.
  rewrite prec_recurrence, qrec_recurrence.
  split; exact (recurrence_0 _ _ h).
Qed.

(** The closed form at [N = 0] is the one-element array [[1.0]], as soon
    as [pow(3., 0.)] is 1. *)
Lemma ReferenceSequence_0 (pw : Pow (F:=float)) h :
  pw 3 0 = 1 →
  ReferenceSequence 0 h = (Ok (length h + 1)%nat, h ++ [[1]; [1]]).
Proof.
  intros Hpw. rewrite ReferenceSequence_run. unfold closed_form, powers.
  change (range 0 (0 + 1)) with [0%Z]. simpl.
  change (fpow (float_of_Z 3) (float_of_Z 0)) with (pw 3 0).
  rewrite Hpw. reflexivity.
Qed.

(** C6: the closed form is computed in floating point throughout:
    element [k] is the float quotient of 1 by the float power
    [pow(3., float(k))].  With a faithful [pow], element 40 of
    [ReferenceSequence(40)] is a small positive float between 8.2e-20 and
    8.3e-20. *)
Theorem ReferenceSequence_float (pw : Pow (F:=float)) (N : Z) h :
  (0 ≤ N)%Z → faithful3 pw 40 →
  ∃ e, ReferenceSequence N h = (Ok (length h + 1)%nat, h ++ [powers N; e]) ∧
    length e = Z.to_nat (N + 1) ∧
    (∀ k, (0 ≤ k ≤ N)%Z → e !! Z.to_nat k = Some (1 / pw 3 (float_of_Z k))) ∧
    (N = 40%Z → ∃ x, e !! 40%nat = Some x ∧
       (0 <? x) = true ∧ (8.2e-20 <? x) = true ∧ (x <? 8.3e-20) = true).
Proof.
  intros HN Hf. exists (closed_form N).
  split; [apply ReferenceSequence_run|].
  split; [by apply closed_form_length|].
  split; [intros k Hk; by rewrite closed_form_lookup|].
  intros ->. exists (1 / pw 3 (float_of_Z 40)).
  split; [by rewrite (closed_form_lookup 40 40)|].
  destruct Hf as [-> | ->]; vm_compute; auto.
Qed.

(** The checks of C7, index by index, for both floats that a faithful
    [pow] may return. *)
Lemma divergence_checked :
  forallb (λ i, diverges_at i (round_down (3 ^ i)) &&
                diverges_at i (round_up (3 ^ i))) (seqZ 2 39) = true.
Proof. vm_compute. reflexivity. Qed.

Lemma ends_checked :
  ends_apart (round_down (3 ^ 40)) && ends_apart (round_up (3 ^ 40)) = true.
Proof. vm_compute. reflexivity. Qed.

Lemma diverges (pw : Pow (F:=float)) i :
  (2 ≤ i ≤ 40)%Z → faithful3 pw i →
  diverges_at i (pw 3 (float_of_Z i)) = true.
Proof.
  intros Hi Hf. pose proof divergence_checked as Hall.
  rewrite forallb_forall in Hall. specialize (Hall i).
  rewrite andb_true_iff in Hall.
  destruct Hall as [Hd Hu].
  { apply list_elem_of_In, elem_of_seqZ. lia. }
  by destruct Hf as [-> | ->].
Qed.

Lemma cell7_lookup c1 c2 (pw : Pow (F:=float)) i :
  (0 ≤ i ≤ 40)%Z →
  (fabs <$> (fsub (of_int 1) <$>
     zip_with fdiv (term c1 c2 <$> seq 0 41) (closed_form 40))) !! Z.to_nat i =
  Some (frac_err (term c1 c2 (Z.to_nat i)) (1 / pw 3 (float_of_Z i))).
Proof.
  intros Hi. apply errors_lookup.
  - by rewrite list_lookup_fmap, lookup_seq_lt by lia.
  - by rewrite closed_form_lookup.
Qed.

(** C7: in cell 7 ([N = 40]), with a faithful [pow]: [p] and [q] are the
    arrays [prec(40)] and [qrec(40)] return, [expected] is the closed
    form, and [perr] and [qerr] are what [ErrorEvaluator] returns for
    [p] and for [q] against [expected], so [|1 - p[i]/expected[i]|] and
    [|1 - q[i]/expected[i]|] at every index.  The error of [qrec]
    exceeds the error of [prec] at every index from 2 on; at index 40 the
    error of [qrec] is above 1 and the error of [prec] below 1e-6. *)
Theorem divergence_at_40 (pw : Pow (F:=float)) h :
  (∀ k, (0 ≤ k ≤ 40)%Z → faithful3 pw k) →
  ∃ g P Q ps E dp up pe dq uq qe,
    cell7 h = (Ok g, h ++ [P; Q; ps; E; dp; up; pe; dq; uq; qe]) ∧
    prec 40 h = (Ok (p g), h ++ [P]) ∧
    qrec 40 (h ++ [P]) = (Ok (q g), h ++ [P; Q]) ∧
    ReferenceSequence 40 (h ++ [P; Q]) =
      (Ok (expected g), h ++ [P; Q; ps; E]) ∧
    ErrorEvaluator (p g) (expected g) (h ++ [P; Q; ps; E]) =
      (Ok (perr g), h ++ [P; Q; ps; E; dp; up; pe]) ∧
    ErrorEvaluator (q g) (expected g) (h ++ [P; Q; ps; E; dp; up; pe]) =
      (Ok (qerr g), h ++ [P; Q; ps; E; dp; up; pe; dq; uq; qe]) ∧
    (h ++ [P; Q; ps; E; dp; up; pe; dq; uq; qe]) !! perr g = Some pe ∧
    (h ++ [P; Q; ps; E; dp; up; pe; dq; uq; qe]) !! qerr g = Some qe ∧
    length pe = 41%nat ∧ length qe = 41%nat ∧
    (∀ i a b e, P !! i = Some a → Q !! i = Some b → E !! i = Some e →
       pe !! i = Some (abs (1 - a / e)) ∧ qe !! i = Some (abs (1 - b / e))) ∧
    (∀ i, (2 ≤ i ≤ 40)%Z →
       ∃ a b, pe !! Z.to_nat i = Some a ∧ qe !! Z.to_nat i = Some b ∧
              (a <? b) = true) ∧
    (∃ a b, pe !! 40%nat = Some a ∧ qe !! 40%nat = Some b ∧
            (1 <? b) = true ∧ (a <? 1e-6) = true).
Proof.
  intros Hf.
  set (P := term (F:=float) (fdiv (of_int 5) (of_int 6))
              (fdiv (of_int 1) (of_int 6)) <$> seq 0 41).
  set (Q := term (F:=float) (fdiv (of_int 5) (of_int 3))
              (fdiv (of_int 4) (of_int 9)) <$> seq 0 41).
  set (E := closed_form (pw:=pw) 40).
  assert (HP : length P = length E).
  { unfold P, E. by rewrite closed_form_length, length_fmap, length_seq. }
  assert (HQ : length Q = length E).
  { unfold Q, E. by rewrite closed_form_length, length_fmap, length_seq. }
  exists (Globals (length h + 0)%nat (length h + 1)%nat (range 0 41)
                  (length h + 3)%nat (length h + 6)%nat (length h + 9)%nat),
    P, Q, (powers 40), E,
    (zip_with fdiv P E), (fsub (of_int 1) <$> zip_with fdiv P E),
    (fabs <$> (fsub (of_int 1) <$> zip_with fdiv P E)),
    (zip_with fdiv Q E), (fsub (of_int 1) <$> zip_with fdiv Q E),
    (fabs <$> (fsub (of_int 1) <$> zip_with fdiv Q E)).
  cbn [p q expected perr qerr].
  split; [exact (cell7_run h)|].
  split.
  { rewrite Nat.add_0_r, prec_recurrence. apply recurrence_run. lia. }
  split.
  { rewrite qrec_recurrence.
    exact (recurrence_run_at _ _ 40 h [P] ltac:(lia)). }
  split; [exact (ReferenceSequence_run_at 40 h [P; Q])|].
  split.
  { exact (ErrorEvaluator_run_at h [P; Q; powers 40; E] 0 3 P E
             eq_refl eq_refl HP). }
  split.
  { exact (ErrorEvaluator_run_at h
             [P; Q; powers 40; E; zip_with fdiv P E;
              fsub (of_int 1) <$> zip_with fdiv P E;
              fabs <$> (fsub (of_int 1) <$> zip_with fdiv P E)]
             1 3 Q E eq_refl eq_refl HQ). }
  rewrite !lookup_new.
  split; [reflexivity|]. split; [reflexivity|].
  assert (HE : length E = 41%nat) by (unfold E; by rewrite closed_form_length).
  split; [by rewrite errors_length|].
  split; [by rewrite errors_length|].
  split.
  { intros i a b e Ha Hb He.
    rewrite (errors_lookup _ _ _ _ _ Ha He), (errors_lookup _ _ _ _ _ Hb He).
    done. }
  split.
  - intros i Hi. eexists _, _.
    split; [apply cell7_lookup; lia|]. split; [apply cell7_lookup; lia|].
    apply (diverges pw i Hi). apply Hf. lia.
  - eexists _, _.
    split; [apply (cell7_lookup _ _ pw 40); lia|].
    split; [apply (cell7_lookup _ _ pw 40); lia|].
    pose proof ends_checked as Hc. rewrite andb_true_iff in Hc.
    destruct Hc as [Hd Hu].
    assert (ends_apart (pw 3 (float_of_Z 40)) = true) as Hend.
    { destruct (Hf 40%Z) as [-> | ->]; [lia|done..]. }
    unfold ends_apart in Hend. rewrite andb_true_iff in Hend.
    exact Hend.
Qed.

Lemma first_errors_zero_rec (pw : Pow (F:=float)) c1 c2 (n : Z) h :
  (1 ≤ n)%Z → pw 3 0 = 1 → pw 3 1 = 3 →
  ∃ s ps ref d u e,
    error_series (recurrence c1 c2) n h =
      (Ok (length h + 5)%nat, h ++ [s; ps; ref; d; u; e]) ∧
    recurrence c1 c2 n h = (Ok (length h), h ++ [s]) ∧
    ReferenceSequence n (h ++ [s]) =
      (Ok (length h + 2)%nat, h ++ [s; ps; ref]) ∧
    ErrorEvaluator (length h) (length h + 2)%nat (h ++ [s; ps; ref]) =
      (Ok (length h + 5)%nat, h ++ [s; ps; ref; d; u; e]) ∧
    (∀ i a b, s !! i = Some a → ref !! i = Some b →
       d !! i = Some (a / b) ∧ u !! i = Some (1 - a / b) ∧
       e !! i = Some (abs (1 - a / b))) ∧
    s !! 0%nat = Some 1 ∧ ref !! 0%nat = Some 1 ∧
    s !! 1%nat = Some (1 / 3) ∧ ref !! 1%nat = Some (1 / 3) ∧
    d !! 0%nat = Some 1 ∧ d !! 1%nat = Some 1 ∧
    u !! 0%nat = Some 0 ∧ u !! 1%nat = Some 0 ∧
    e !! 0%nat = Some 0 ∧ e !! 1%nat = Some 0.
Proof.
  intros Hn H0 H1.
  set (s := term c1 c2 <$> seq 0 (Z.to_nat (n + 1))).
  assert (Hlen : length s = length (closed_form n)).
  { unfold s. by rewrite closed_form_length, length_fmap, length_seq by lia. }
  exists s, (powers n), (closed_form n), (zip_with fdiv s (closed_form n)),
    (fsub (of_int 1) <$> zip_with fdiv s (closed_form n)),
    (fabs <$> (fsub (of_int 1) <$> zip_with fdiv s (closed_form n))).
  split; [by apply error_series_run|].
  split; [by apply recurrence_run|].
  split.
  { rewrite ReferenceSequence_run, length_app, <- app_assoc.
    simpl. do 2 f_equal. lia. }
  split.
  { rewrite <- (Nat.add_0_r (length h)) at 1.
    erewrite (ErrorEvaluator_run_at h [s; powers n; closed_form n] 0 2);
      [reflexivity..|exact Hlen]. }
  assert (Hel : ∀ i a b, s !! i = Some a → closed_form n !! i = Some b →
    zip_with fdiv s (closed_form n) !! i = Some (a / b) ∧
    (fsub (of_int 1) <$> zip_with fdiv s (closed_form n)) !! i
      = Some (1 - a / b) ∧
    (fabs <$> (fsub (of_int 1) <$> zip_with fdiv s (closed_form n))) !! i
      = Some (abs (1 - a / b))).
  { intros i a b Ha Hb.
    assert (Hd : zip_with fdiv s (closed_form n) !! i = Some (a / b)).
    { rewrite lookup_zip_with, Ha. simpl. by rewrite Hb. }
    split; [exact Hd|]. rewrite !list_lookup_fmap, Hd. done. }
  split; [exact Hel|].
  assert (Hs : ∀ i : nat, (i < 2)%nat → s !! i = Some (term c1 c2 i)).
  { intros i Hi. unfold s. by rewrite list_lookup_fmap, lookup_seq_lt by lia. }
  assert (Hs0 : s !! 0%nat = Some 1) by (by rewrite Hs by lia).
  assert (Hs1 : s !! 1%nat = Some (1 / 3)) by (by rewrite Hs by lia).
  assert (Hr0 : closed_form n !! 0%nat = Some 1).
  { rewrite (closed_form_lookup n 0) by lia.
    change (fpow (of_int 3) (of_int 0)) with (pw 3 0). by rewrite H0. }
  assert (Hr1 : closed_form n !! 1%nat = Some (1 / 3)).
  { rewrite (closed_form_lookup n 1) by lia.
    change (fpow (of_int 3) (of_int 1)) with (pw 3 1). by rewrite H1. }
  destruct (Hel 0%nat _ _ Hs0 Hr0) as (Hd0 & Hu0 & He0).
  destruct (Hel 1%nat _ _ Hs1 Hr1) as (Hd1 & Hu1 & He1).
  repeat split; assumption.
Qed.

(** C10: for [n >= 1] the error series of either recurrence against the
    closed form is exactly 0.0 at indices 0 and 1.  The series is what
    [ErrorEvaluator] returns for the array of the recurrence and the
    closed form: it allocates the quotient [d], the difference [u] and
    the absolute value [e], element by element.  At index 0 both arrays
    hold 1.0 and at index 1 both hold the float [1/3] (as soon as
    [pow(3., 0.)] is 1 and [pow(3., 1.)] is 3), so the quotient is
    exactly 1, the difference exactly 0 and the error exactly 0. *)
Theorem first_errors_zero (pw : Pow (F:=float)) (n : Z) h :
  (1 ≤ n)%Z → pw 3 0 = 1 → pw 3 1 = 3 →
  ∀ rec, rec = prec ∨ rec = qrec →
  ∃ s ps ref d u e,
    error_series rec n h =
      (Ok (length h + 5)%nat, h ++ [s; ps; ref; d; u; e]) ∧
    rec n h = (Ok (length h), h ++ [s]) ∧
    ReferenceSequence n (h ++ [s]) =
      (Ok (length h + 2)%nat, h ++ [s; ps; ref]) ∧
    ErrorEvaluator (length h) (length h + 2)%nat (h ++ [s; ps; ref]) =
      (Ok (length h + 5)%nat, h ++ [s; ps; ref; d; u; e]) ∧
    (∀ i a b, s !! i = Some a → ref !! i = Some b →
       d !! i = Some (a / b) ∧ u !! i = Some (1 - a / b) ∧
       e !! i = Some (abs (1 - a / b))) ∧
    s !! 0%nat = Some 1 ∧ ref !! 0%nat = Some 1 ∧
    s !! 1%nat = Some (1 / 3) ∧ ref !! 1%nat = Some (1 / 3) ∧
    d !! 0%nat = Some 1 ∧ d !! 1%nat = Some 1 ∧
    u !! 0%nat = Some 0 ∧ u !! 1%nat = Some 0 ∧
    e !! 0%nat = Some 0 ∧ e !! 1%nat = Some 0.
Proof.
  intros Hn H0 H1 rec [-> | ->]; by apply first_errors_zero_rec.
Qed.

End Binary64.

(** ** The warnings of a call *)

Section Warnings.
Implicit Types w : world.

Lemma lift_bind {A B} (m : M A) (f : A → W B) w r h' :
  m (arrays w) = (r, h') →
  (lift m ≫= f) w =
  match r with
  | Ok a => f a (World h' (warned w))
  | Raise e => (Raise e, World h' (warned w))
  end.
Proof.
  intros E. unfold mbind, W_bind, lift. rewrite E. by destruct r.
Qed.

Lemma lift_run {A} (m : M A) w r h' :
  m (arrays w) = (r, h') → lift m w = (r, World h' (warned w)).
Proof. intros E. unfold lift. by rewrite E. Qed.

Lemma scalar_bind {B} f op x y (k : float → W B) w :
  (scalar f op x y ≫= k) w =
  k (op x y) (World (arrays w)
                    (warned w ++ reported f (raised f x y (op x y)))).
Proof. reflexivity. Qed.

Lemma warn_bind {B} ws (k : W B) w :
  (warn ws ;; k) w = k (World (arrays w) (warned w ++ ws)).
Proof. reflexivity. Qed.

Lemma prec_w_recurrence n :
  prec_w n = recurrence_w (fdiv (of_int 5) (of_int 6))
                          (fdiv (of_int 1) (of_int 6)) n.
Proof. reflexivity. Qed.

Lemma qrec_w_recurrence n :
  qrec_w n = recurrence_w (fdiv (of_int 5) (of_int 3))
                          (fdiv (of_int 4) (of_int 9)) n.
Proof. reflexivity. Qed.

Section Loops.
Variables c1 c2 : float.

Lemma step_w_run len k h l p :
  (k + 2 < len)%nat → h !! p = Some (filled c1 c2 len (k + 2)) →
  step_w c1 c2 p (Z.of_nat (k + 2)) (World h l) =
  (Ok tt, World (<[p := filled c1 c2 len (S (k + 2))]> h)
                (l ++ step_log c1 c2 k)).
Proof.
  intros Hk Hp. unfold step_w.
  erewrite lift_bind; cycle 1.
  { eapply getitem_run; [exact Hp|lia|].
    replace (Z.to_nat (Z.of_nat (k + 2) - 1)) with (S k) by lia.
    apply filled_lookup. lia. }
  cbv beta iota.
  rewrite scalar_bind.
  erewrite lift_bind; cycle 1.
  { eapply getitem_run; [exact Hp|lia|].
    replace (Z.to_nat (Z.of_nat (k + 2) - 2)) with k by lia.
    apply filled_lookup. lia. }
  cbv beta iota.
  rewrite !scalar_bind.
  erewrite lift_run; cycle 1.
  { eapply setitem_run; [exact Hp|]. rewrite filled_length; lia. }
  cbn [arrays warned].
  rewrite Nat2Z.id. replace (k + 2)%nat with (S (S k)) by lia.
  rewrite <- term_SS, filled_step by lia.
  unfold step_log. cbv zeta. by rewrite term_SS, <- !app_assoc.
Qed.

Lemma loop_w_run len p m : ∀ k h l,
  (k + 2 + m = len)%nat → h !! p = Some (filled c1 c2 len (k + 2)) →
  for_w (seqZ (Z.of_nat (k + 2)) (Z.of_nat m)) (step_w c1 c2 p) (World h l) =
  (Ok tt, World (<[p := filled c1 c2 len len]> h)
                (l ++ concat (step_log c1 c2 <$> seq k m))).
Proof.
  induction m as [|m IH]; intros k h l Hlen Hp.
  - replace (k + 2)%nat with len in * by lia. simpl.
    rewrite list_insert_id, app_nil_r by done. reflexivity.
  - rewrite seqZ_cons by lia. cbn [for_w].
    unfold mbind at 1, W_bind at 1.
    rewrite (step_w_run len) by (lia || done).
    replace (Z.succ (Z.of_nat (k + 2))) with (Z.of_nat (S k + 2)) by lia.
    replace (Z.pred (Z.of_nat (S m))) with (Z.of_nat m) by lia.
    rewrite IH; [|lia|].
    + rewrite list_insert_insert_eq. cbn [seq fmap list_fmap concat].
      by rewrite <- app_assoc.
    + replace (S k + 2)%nat with (S (k + 2)) by lia.
      apply list_lookup_insert_eq. by eapply lookup_lt_Some.
Qed.

Lemma recurrence_w_run n h l :
  1 ≤ n →
  recurrence_w c1 c2 n (World h l) =
  (Ok (length h),
   World (h ++ [term c1 c2 <$> seq 0 (Z.to_nat (n + 1))])
         (l ++ recurrence_log c1 c2 n)).
Proof.
  intros Hn. unfold recurrence_w.
  erewrite lift_bind; [|apply np_zeros_run; lia]; cbv beta iota.
  destruct (Z.to_nat (n + 1)) as [|[|len]] eqn:Elen; [lia..|].
  erewrite lift_bind; cycle 1.
  { eapply setitem_run; [apply lookup_last|].
    rewrite length_replicate. lia. }
  cbv beta iota.
  cbn [arrays warned]. rewrite insert_last.
  erewrite lift_bind; cycle 1.
  { eapply setitem_run; [apply lookup_last|].
    rewrite length_insert, length_replicate. lia. }
  cbv beta iota.
  cbn [arrays warned]. rewrite insert_last.
  unfold range. replace (n + 1 - 2) with (Z.of_nat len) by lia.
  unfold mbind at 1, W_bind at 1.
  rewrite (loop_w_run (S (S len)) (length h) len 0); cycle 1.
  { lia. }
  { rewrite lookup_last. f_equal. unfold filled.
    replace (S (S len) - (0 + 2))%nat with len by lia. reflexivity. }
  rewrite insert_last, filled_full. unfold recurrence_log.
  replace (Z.to_nat (n - 1)) with len by lia. reflexivity.
Qed.

Lemma recurrence_log_short n : n ≤ 1 → recurrence_log c1 c2 n = [].
Proof.
  intros Hn. unfold recurrence_log. by replace (Z.to_nat (n - 1)) with 0%nat by lia.
Qed.

Lemma recurrence_w_runs n :
  runs_as anywhere (recurrence_w c1 c2 n) (recurrence c1 c2 n)
          (recurrence_log c1 c2 n).
Proof.
  intros [h l] _. cbn [arrays warned].
  destruct (decide (1 ≤ n)) as [Hn|Hn].
  { by rewrite recurrence_w_run, recurrence_run. }
  rewrite recurrence_log_short, app_nil_r by lia.
  destruct (decide (n = 0)) as [->|H0].
  { rewrite recurrence_0. unfold recurrence_w.
    erewrite lift_bind; [|apply np_zeros_run; lia]; cbv beta iota.
    erewrite lift_bind; cycle 1.
    { eapply setitem_run; [apply lookup_last|]. simpl. lia. }
    cbv beta iota.
    cbn [arrays warned]. rewrite insert_last.
    erewrite lift_bind; cycle 1.
    { eapply setitem_out; [apply lookup_last|]. simpl. lia. }
    cbv beta iota.
    reflexivity. }
  destruct (decide (n = -1)) as [->|H1].
  { rewrite recurrence_minus_1. unfold recurrence_w.
    erewrite lift_bind; [|apply np_zeros_run; lia]; cbv beta iota.
    erewrite lift_bind; cycle 1.
    { eapply setitem_out; [apply lookup_last|]. simpl. lia. }
    cbv beta iota.
    reflexivity. }
  rewrite recurrence_neg by lia. unfold recurrence_w.
  erewrite lift_bind; [|apply np_zeros_neg; lia]; cbv beta iota. reflexivity.
Qed.

End Loops.

Lemma np_rdiv_w_run c t d h l :
  h !! t = Some d →
  np_rdiv_w c t (World h l) =
  (Ok (length h),
   World (h ++ [fdiv c <$> d])
         (l ++ reported true_divide
                 (loop_status true_divide fdiv (pair c <$> d)))).
Proof.
  intros Ht. unfold np_rdiv_w.
  erewrite lift_bind; [|by apply load_run]; cbv beta iota.
  erewrite lift_bind; [|by apply np_rdiv_run]; cbv beta iota. reflexivity.
Qed.

Lemma np_rsub_w_run c t d h l :
  h !! t = Some d →
  np_rsub_w c t (World h l) =
  (Ok (length h),
   World (h ++ [fsub c <$> d])
         (l ++ reported subtract (loop_status subtract fsub (pair c <$> d)))).
Proof.
  intros Ht. unfold np_rsub_w.
  erewrite lift_bind; [|by apply load_run]; cbv beta iota.
  erewrite lift_bind; [|by apply np_rsub_run]; cbv beta iota. reflexivity.
Qed.

Lemma np_div_w_run x y a b d h l :
  h !! x = Some a → h !! y = Some b → broadcast fdiv a b = Ok d →
  np_div_w x y (World h l) =
  (Ok (length h),
   World (h ++ [d])
         (l ++ reported true_divide
                 (loop_status true_divide fdiv (operands a b)))).
Proof.
  intros Hx Hy Hd. unfold np_div_w.
  erewrite lift_bind; [|by apply load_run]; cbv beta iota.
  erewrite lift_bind; [|by apply load_run]; cbv beta iota.
  erewrite lift_bind; [|by eapply np_div_run]; cbv beta iota. reflexivity.
Qed.

Lemma np_div_w_raise x y a b e h l :
  h !! x = Some a → h !! y = Some b → broadcast fdiv a b = Raise e →
  np_div_w x y (World h l) = (Raise e, World h l).
Proof.
  intros Hx Hy Hd. unfold np_div_w.
  erewrite lift_bind; [|by apply load_run]; cbv beta iota.
  erewrite lift_bind; [|by apply load_run]; cbv beta iota.
  erewrite lift_bind; [|by eapply np_div_raise]; cbv beta iota. reflexivity.
Qed.

Lemma ErrorEvaluator_w_runs c r cs rs :
  runs_as (holds c r cs rs) (ErrorEvaluator_w c r) (ErrorEvaluator c r)
          (error_log cs rs).
Proof.
  intros [h l] Hh. cbn [arrays warned] in *. unfold error_log.
  destruct (broadcast fdiv cs rs) as [d|e] eqn:Hd.
  - rewrite (ErrorEvaluator_run h c r cs rs d Hh Hd).
    destruct Hh as [Hc Hr]. unfold ErrorEvaluator_w.
    unfold mbind at 1, W_bind at 1.
    rewrite (np_div_w_run c r cs rs d h l Hc Hr Hd).
    unfold mbind at 1, W_bind at 1.
    rewrite (np_rsub_w_run _ _ d) by apply lookup_last.
    erewrite lift_run; cycle 1.
    { cbn [arrays]. apply np_abs_run.
      rewrite length_app. simpl length.
      replace (length h + 1)%nat with (length (h ++ [d]))
        by (rewrite length_app; simpl; lia).
      apply lookup_last. }
    cbn [warned fst snd]. unfold err_arrays.
    rewrite !length_app, <- !app_assoc. simpl.
    do 2 f_equal. lia.
  - rewrite (ErrorEvaluator_raise h c r cs rs e Hh Hd).
    destruct Hh as [Hc Hr]. unfold ErrorEvaluator_w.
    unfold mbind at 1, W_bind at 1.
    rewrite (np_div_w_raise c r cs rs e h l Hc Hr Hd).
    cbn [fst snd]. by rewrite app_nil_r.
Qed.

Lemma np_rpow_w_run (pw : Pow (F:=float)) x n h l :
  np_rpow_w x n (World h l) =
  (Ok (length h),
   World (h ++ [(λ k, fpow x (of_int k)) <$> n])
         (l ++ reported power
                 (loop_status power fpow ((λ k, (x, of_int k)) <$> n)))).
Proof. reflexivity. Qed.

Lemma ReferenceSequence_w_runs (pw : Pow (F:=float)) N :
  runs_as anywhere (ReferenceSequence_w N) (ReferenceSequence N)
          (reference_log N).
Proof.
  intros [h l] _. cbn [arrays warned].
  rewrite ReferenceSequence_run. unfold ReferenceSequence_w.
  unfold mbind at 1, W_bind at 1.
  rewrite np_rpow_w_run.
  rewrite (np_rdiv_w_run _ _ (powers N)) by apply lookup_last.
  cbn [fst snd]. unfold reference_log, np_arange.
  rewrite length_app, <- !app_assoc. reflexivity.
Qed.

(** Where a call does issue a warning: one operation that overflows is
    enough. *)
Lemma loop_status_overflow f op args x y :
  (x, y) ∈ args → overflow (raised f x y (op x y)) = true →
  overflow (loop_status f op args) = true.
Proof.
  intros Hin Hov. induction args as [|[a b] args IH]; [by inversion Hin|].
  cbn [loop_status foldr status_or overflow fst snd].
  apply elem_of_cons in Hin as [[= <- <-] | Hin].
  - by rewrite Hov.
  - apply orb_true_iff. right. exact (IH Hin).
Qed.

Lemma reported_overflow f s :
  overflow s = true → RuntimeWarning Overflow f ∈ reported f s.
Proof.
  intros Hov. unfold reported. rewrite Hov.
  apply elem_of_app. right. apply elem_of_app. left. apply list_elem_of_here.
Qed.

Lemma reference_overflows (pw : Pow (F:=float)) N :
  647 ≤ N → fpow (of_int 3) (of_int 647) = infinity →
  RuntimeWarning Overflow power ∈ reference_log N.
Proof.
  intros HN Hpw. unfold reference_log. apply elem_of_app. left.
  apply reported_overflow.
  apply (loop_status_overflow _ _ _ (of_int 3) (of_int 647)).
  - apply list_elem_of_fmap. exists 647. split; [done|].
    unfold range. apply elem_of_seqZ. lia.
  - rewrite Hpw. reflexivity.
Qed.

Lemma qrec_overflows n :
  2597 ≤ n →
  RuntimeWarning Overflow multiply ∈
    recurrence_log (fdiv (of_int 5) (of_int 3)) (fdiv (of_int 4) (of_int 9)) n.
Proof.
  intros Hn. unfold recurrence_log.
  apply list_elem_of_In, in_concat.
  exists [RuntimeWarning Overflow multiply]. split; [|by left].
  apply list_elem_of_In, list_elem_of_fmap. exists 2595%nat.
  split; [vm_compute; reflexivity|]. apply elem_of_seq. lia.
Qed.

(** C9: each of the four operations is deterministic, and the only state
    it shares with other calls is that of the warnings.  With the
    warnings dropped, a call of [prec_w], [qrec_w], [ReferenceSequence_w]
    or [ErrorEvaluator_w] is the call of [prec], [qrec],
    [ReferenceSequence] or [ErrorEvaluator] ([runs_as]), which leaves
    every existing array as it was, allocates the same new arrays and
    ends the same way whatever the heap ([pure_call]), also when called
    again ([same_again]).  The warnings it issues depend on its input
    alone: on [n] for the recurrences (those of each turn of the loop
    whose products or difference overflow or are invalid), on [N] for
    the closed form, on the elements of its two arguments for the
    evaluation of the errors.  They are issued on valid inputs:
    by [qrec] for every [n >= 2597], where a product overflows, and by
    [ReferenceSequence] for every [N >= 647] as soon as [pow(3., 647.)]
    overflows. *)
Theorem deterministic_up_to_warnings (pw : Pow (F:=float)) :
  (∀ n, runs_as anywhere (prec_w n) (prec n)
          (recurrence_log (fdiv (of_int 5) (of_int 6))
                          (fdiv (of_int 1) (of_int 6)) n) ∧
        pure_call anywhere (prec (F:=float) n) ∧
        same_again anywhere (prec (F:=float) n)) ∧
  (∀ n, runs_as anywhere (qrec_w n) (qrec n)
          (recurrence_log (fdiv (of_int 5) (of_int 3))
                          (fdiv (of_int 4) (of_int 9)) n) ∧
        pure_call anywhere (qrec (F:=float) n) ∧
        same_again anywhere (qrec (F:=float) n)) ∧
  (∀ N, runs_as anywhere (ReferenceSequence_w N) (ReferenceSequence N)
          (reference_log N) ∧
        pure_call anywhere (ReferenceSequence (F:=float) N) ∧
        same_again anywhere (ReferenceSequence (F:=float) N)) ∧
  (∀ c r cs rs,
        runs_as (holds c r cs rs) (ErrorEvaluator_w c r) (ErrorEvaluator c r)
          (error_log cs rs) ∧
        pure_call (holds c r cs rs) (ErrorEvaluator (F:=float) c r) ∧
        same_again (holds c r cs rs) (ErrorEvaluator (F:=float) c r)) ∧
  (∀ n, 2597 ≤ n →
        RuntimeWarning Overflow multiply ∈
          recurrence_log (fdiv (of_int 5) (of_int 3))
                         (fdiv (of_int 4) (of_int 9)) n) ∧
  (∀ N, 647 ≤ N → fpow (of_int 3) (of_int 647) = infinity →
        RuntimeWarning Overflow power ∈ reference_log N).
Proof.
  destruct (operations_pure (F:=float) (pw:=pw)) as (Hp & Hq & Hr & He).
  split; [intros n; split;
          [rewrite prec_w_recurrence, prec_recurrence;
           apply recurrence_w_runs|apply Hp]|].
  split; [intros n; split;
          [rewrite qrec_w_recurrence, qrec_recurrence;
           apply recurrence_w_runs|apply Hq]|].
  split; [intros N; split; [apply ReferenceSequence_w_runs|apply Hr]|].
  split.
  { intros c r cs rs. split; [apply ErrorEvaluator_w_runs|apply He]. }
  split; [exact qrec_overflows|]. exact (reference_overflows pw).
Qed.

End Warnings.

(** ** Exact arithmetic *)

Section Exact.
Implicit Types h : heap Qc.
Open Scope Qc_scope.

(** A recurrence [s j = c1 * s (j-1) - c2 * s (j-2)] that has [1/3] as a
    root of [x^2 = c1 * x - c2] produces the powers of [1/3] from the
    start [1, 1/3]. *)
Lemma terms_exact (c1 c2 : Qc) :
  c1 * third - c2 = third * third →
  ∀ k, terms c1 c2 k = (third ^ k, third ^ S k).
Proof.
  intros Hroot. induction k as [|k IH].
  - simpl. f_equal; apply Qc_is_canon; reflexivity.
  - simpl terms. rewrite IH. f_equal.
    change (fsub (fmul c1 (third ^ S k)) (fmul c2 (third ^ k)))
      with (c1 * (third ^ S k) - c2 * third ^ k).
    simpl Qcpower.
    transitivity ((c1 * third - c2) * third ^ k); [ring|].
    rewrite Hroot. ring.
Qed.

Lemma term_exact (c1 c2 : Qc) k :
  c1 * third - c2 = third * third → term c1 c2 k = third ^ k.
Proof. intros Hroot. unfold term. by rewrite terms_exact. Qed.

Lemma prec_root :
  fdiv (of_int 5) (of_int 6) * third - fdiv (of_int 1) (of_int 6) = third * third.
Proof. apply Qc_is_canon. reflexivity. Qed.

Lemma qrec_root :
  fdiv (of_int 5) (of_int 3) * third - fdiv (of_int 4) (of_int 9) = third * third.
Proof. apply Qc_is_canon. reflexivity. Qed.

Lemma recurrence_exact (c1 c2 : Qc) n h :
  c1 * third - c2 = third * third → (1 ≤ n)%Z →
  recurrence c1 c2 n h = (Ok (length h), h ++ [third_powers n]).
Proof.
  intros Hroot Hn. rewrite recurrence_run by done. do 3 f_equal.
  unfold third_powers. apply list_eq. intros i.
  rewrite !list_lookup_fmap. destruct (seq 0 (Z.to_nat (n + 1)) !! i); [|done].
  simpl. f_equal. by apply term_exact.
Qed.

(** C8: without rounding the two recurrences are the same function for
    [n >= 1]: both return the array of the exact powers [(1/3)^j],
    [j = 0 .. n].  At [n = 0] the specification asks for [[1]] and both calls
    raise [IndexError] instead. *)
Theorem exact_recurrences :
  (∀ n h, (1 ≤ n)%Z →
     prec n h = (Ok (length h), h ++ [third_powers n]) ∧
     qrec n h = (Ok (length h), h ++ [third_powers n])) ∧
  (∀ h, prec 0 h = (Raise IndexError, h ++ [[Q2Qc 1]]) ∧
        qrec 0 h = (Raise IndexError, h ++ [[Q2Qc 1]])).
Proof.
  split.
  - intros n h Hn. rewrite prec_recurrence, qrec_recurrence.
    split; apply recurrence_exact; auto using prec_root, qrec_root.
  - intros h. rewrite prec_recurrence, qrec_recurrence.
    split; exact (recurrence_0 _ _ h).
Qed.

End Exact.

(** ** The statements at concrete inputs *)

Open Scope float_scope.

(** [pow_nearest] is faithful at [3 ** k] for [k = 0 .. 40]. *)
Lemma pow_nearest_faithful k :
  (0 ≤ k ≤ 40)%Z → faithful3 pow_nearest k.
Proof.
  intros Hk. assert (Hall : Forall (faithful3 pow_nearest) (seqZ 0 41)).
  { let l := eval vm_compute in (seqZ 0 41) in change (seqZ 0 41) with l.
    repeat (apply Forall_cons; split;
      [first [left; vm_compute; reflexivity
             |right; vm_compute; reflexivity]|]).
    by apply Forall_nil. }
  rewrite Forall_seqZ in Hall. apply Hall. lia.
Qed.

Lemma recurrences_correct_witness :
  (1 ≤ 4)%Z ∧
  (∃ s, prec 4 [] = (Ok 0%nat, [s]) ∧
        obeys (F:=float) (fdiv (of_int 5) (of_int 6))
              (fdiv (of_int 1) (of_int 6)) 4 s) ∧
  (∃ s, qrec 4 [] = (Ok 0%nat, [s]) ∧
        obeys (F:=float) (fdiv (of_int 5) (of_int 3))
              (fdiv (of_int 4) (of_int 9)) 4 s).
Proof.
  split; [lia|]. apply (recurrences_correct (F:=float) 4 []). lia.
Defined.

Lemma negative_n_raises_witness :
  (-2 < 0)%Z ∧
  prec (F:=float) (-2) [[1]] = (Raise ValueError, [[1]]) ∧
  qrec (F:=float) (-2) [[1]] = (Raise ValueError, [[1]]).
Proof.
  split; [lia|]. apply (negative_n_raises (F:=float) (-2) [[1]]). lia.
Defined.

(** C3 fails at [n = -1]: the argument is not rejected, an empty array
    is allocated and it is the store [p[0] = 1] that raises, an
    [IndexError]. *)
Lemma minus_one_not_rejected :
  prec (F:=float) (-1) [] = (Raise IndexError, [[]]) ∧
  qrec (F:=float) (-1) [] = (Raise IndexError, [[]]) ∧
  prec (F:=float) (-1) [] ≠ (Raise ValueError, []).
Proof. split; [|split]; [reflexivity..|discriminate]. Qed.

Lemma ErrorEvaluator_correct_witness :
  holds 0%nat 1%nat [1; 2] [4; 8] [[1; 2]; [4; 8]] ∧
  length [1; 2] = length [4; 8] ∧
  Forall (λ z, (z =? 0) = false) [4; 8] ∧
  ∃ l h' e, ErrorEvaluator 0%nat 1%nat [[1; 2]; [4; 8]] = (Ok l, h') ∧
    [[1; 2]; [4; 8]] !! l = None ∧ h' !! l = Some e ∧
    (∀ k d, [[1; 2]; [4; 8]] !! k = Some d → h' !! k = Some d) ∧
    length e = length [1; 2] ∧
    ∀ i a b, [1; 2] !! i = Some a → [4; 8] !! i = Some b →
      ∃ v, e !! i = Some v ∧ v = abs (1 - a / b) ∧
           (v <? 0) = false ∧ (v = nan ∨ (0 <=? v) = true).
Proof.
  assert (Hh : holds 0%nat 1%nat [1; 2] [4; 8] [[1; 2]; [4; 8]]) by (split; reflexivity).
  assert (Hz : Forall (λ z, (z =? 0) = false) [4; 8])
    by (repeat constructor).
  split; [exact Hh|]. split; [reflexivity|]. split; [exact Hz|].
  exact (ErrorEvaluator_correct _ 0%nat 1%nat _ _ Hh eq_refl Hz).
Defined.

(** C2 fails where a quotient is NaN: the arrays have equal length, the
    reference holds no zero, and the error is NaN, which is not [>= 0]. *)
Lemma nan_error :
  Forall (λ z, (z =? 0) = false) [infinity] ∧
  ErrorEvaluator 0%nat 1%nat [[infinity]; [infinity]] =
    (Ok 4%nat, [[infinity]; [infinity]; [nan]; [nan]; [nan]]) ∧
  (0 <=? nan) = false.
Proof. split; [repeat constructor|split; reflexivity]. Qed.

Lemma ErrorEvaluator_errors_witness :
  holds 0%nat 1%nat [1; 2; 3] [0; 2] [[1; 2; 3]; [0; 2]] ∧
  ErrorEvaluator 0%nat 1%nat [[1; 2; 3]; [0; 2]] =
    (Raise ValueError, [[1; 2; 3]; [0; 2]]).
Proof.
  assert (Hh : holds 0%nat 1%nat [1; 2; 3] [0; 2] [[1; 2; 3]; [0; 2]])
    by (split; reflexivity).
  split; [exact Hh|].
  apply (ErrorEvaluator_errors _ 0%nat 1%nat _ _ Hh); simpl; lia.
Defined.

(** C5 fails on both counts at once: the lengths differ (1 and 2) and
    the reference holds a zero, and the call returns, with an infinite
    error at the index of the zero. *)
Lemma no_length_or_zero_error :
  ErrorEvaluator 0%nat 1%nat [[1]; [0; 2]] =
    (Ok 4%nat, [[1]; [0; 2]; [infinity; 0.5];
                [neg_infinity; 0.5]; [infinity; 0.5]]) ∧
  ErrorEvaluator 0%nat 1%nat [[1]; [0]] =
    (Ok 4%nat, [[1]; [0]; [infinity]; [neg_infinity]; [infinity]]).
Proof. split; reflexivity. Qed.

Lemma ReferenceSequence_float_witness :
  (0 ≤ 40)%Z ∧ faithful3 pow_nearest 40 ∧
  ∃ e, ReferenceSequence (pw:=pow_nearest) 40 [] =
         (Ok 1%nat, [powers (pw:=pow_nearest) 40; e]) ∧
       e !! 40%nat = Some 8.2252633399699586e-20.
Proof.
  assert (Hf : faithful3 pow_nearest 40) by (left; vm_compute; reflexivity).
  split; [lia|]. split; [exact Hf|].
  destruct (ReferenceSequence_float pow_nearest 40 [] ltac:(lia) Hf)
    as (e & E & _ & He & _).
  exists e. split; [exact E|]. exact (He 40%Z ltac:(lia)).
Defined.

Lemma divergence_at_40_witness :
  (∀ k, (0 ≤ k ≤ 40)%Z → faithful3 pow_nearest k) ∧
  ∃ g h' pe qe, cell7 (pw:=pow_nearest) [] = (Ok g, h') ∧
    h' !! perr g = Some pe ∧ h' !! qerr g = Some qe ∧
    (∃ a b, pe !! 40%nat = Some a ∧ qe !! 40%nat = Some b ∧
            (1 <? b) = true ∧ (a <? 1e-6) = true).
Proof.
  split; [exact pow_nearest_faithful|].
  destruct (divergence_at_40 pow_nearest [] pow_nearest_faithful)
    as (g & P & Q & ps & E & dp & up & pe & dq & uq & qe & Hc & _ & _ & _
        & _ & _ & Hp & Hq & _ & _ & _ & _ & Hend).
  exists g, ([] ++ [P; Q; ps; E; dp; up; pe; dq; uq; qe]), pe, qe. auto.
Defined.

Lemma first_errors_zero_witness :
  (1 ≤ 40)%Z ∧ pow_nearest 3 0 = 1 ∧ pow_nearest 3 1 = 3 ∧
  ∃ s ps ref d u e,
    error_series (pw:=pow_nearest) qrec 40 [] =
      (Ok 5%nat, [s; ps; ref; d; u; e]) ∧
    d !! 1%nat = Some 1 ∧ e !! 0%nat = Some 0 ∧ e !! 1%nat = Some 0.
Proof.
  split; [lia|]. split; [reflexivity|]. split; [reflexivity|].
  destruct (first_errors_zero pow_nearest 40 [] ltac:(lia) eq_refl eq_refl
              qrec (or_intror eq_refl))
    as (s & ps & ref & d & u & e & E & _ & _ & _ & _ & _ & _ & _ & _
        & _ & Hd1 & _ & _ & H0 & H1).
  exists s, ps, ref, d, u, e. auto.
Defined.

(** C9 fails on valid inputs: [qrec(2597)] overflows in its last
    product, [ReferenceSequence(647)] in its last power, and an
    evaluation of errors in a quotient whose reference is not zero.
    Each call issues a warning, which the [warnings] module records in
    its registry and prints. *)
Lemma warnings_issued :
  warned (qrec_w 2597 (World [] [])).2 = [RuntimeWarning Overflow multiply] ∧
  RuntimeWarning Overflow power ∈
    warned (ReferenceSequence_w (pw:=pow_nearest) 647 (World [] [])).2 ∧
  ErrorEvaluator_w 0%nat 1%nat (World [[1e308]; [1e-308]] []) =
    (Ok 4%nat,
     World [[1e308]; [1e-308]; [infinity]; [neg_infinity]; [infinity]]
           [RuntimeWarning Overflow true_divide]).
Proof.
  split; [vm_compute; reflexivity|]. split; [|vm_compute; reflexivity].
  rewrite (ReferenceSequence_w_runs pow_nearest 647 (World [] []) I).
  cbn [snd warned app].
  apply reference_overflows; [lia|vm_compute; reflexivity].
Qed.

Lemma exact_recurrences_witness :
  (1 ≤ 3)%Z ∧
  prec (F:=Qc) 3 [] = (Ok 0%nat, [third_powers 3]) ∧
  qrec (F:=Qc) 3 [] = (Ok 0%nat, [third_powers 3]).
Proof.
  split; [lia|]. apply (proj1 exact_recurrences 3%Z []). lia.
Defined.

(** ** The recorded run

    The embedding, with [pow_nearest] for the C library's [pow],
    reproduces every array the notebook prints. *)

Example Out5_reproduced :
  ∃ s, prec (F:=float) 4 [] = (Ok 0%nat, [s]) ∧
       all2 prints_fixed s Recorded.Out5 = true.
Proof. eexists. split; [reflexivity|]. vm_compute. reflexivity. Qed.

Example Out6_reproduced :
  ∃ s, qrec (F:=float) 4 [] = (Ok 0%nat, [s]) ∧
       all2 prints_fixed s Recorded.Out5 = true.
Proof. eexists. split; [reflexivity|]. vm_compute. reflexivity. Qed.

Example Out8_reproduced :
  all2 prints_as (cell8 (np_arange 41)) Recorded.Out8 = true.
Proof. vm_compute. reflexivity. Qed.

(** What the float power guards against: in int64 the last element is
    negative. *)
Example cell8_negative :
  ∃ x, cell8 (np_arange 41) !! 40%nat = Some x ∧ (x <? 0) = true.
Proof. eexists. split; vm_compute; reflexivity. Qed.

Example Out10_reproduced : wrap64 (3 ^ 40) = Recorded.Out10.
Proof. reflexivity. Qed.

Example Out11_reproduced : pow_nearest 3 40 = Recorded.Out11.
Proof. vm_compute. reflexivity. Qed.

Example cell7_reproduced :
  ∃ g h e pe qe, cell7 (pw:=pow_nearest) [] = (Ok g, h) ∧
    h !! expected g = Some e ∧ all2 prints_as e Recorded.Out9 = true ∧
    h !! perr g = Some pe ∧ all2 prints_as pe Recorded.Out13 = true ∧
    h !! qerr g = Some qe ∧ all2 prints_as qe Recorded.Out14 = true.
Proof.
  eexists _, _, _, _, _. split; [vm_compute; reflexivity|].
  repeat split; vm_compute; reflexivity.
Qed.

(** Cell 7 records no output on [stderr]: the calls with [N = 40] issue
    no warning. *)
Example cell7_quiet :
  warned (cell7_w (pw:=pow_nearest) (World [] [])).2 = [] ∧
  (cell7_w (pw:=pow_nearest) (World [] [])).1 = (cell7 (pw:=pow_nearest) []).1 ∧
  arrays (cell7_w (pw:=pow_nearest) (World [] [])).2
    = (cell7 (pw:=pow_nearest) []).2.
Proof. split; [|split]; vm_compute; reflexivity. Qed.

(** * Further properties of the code *)

Close Scope float_scope.

(** ** The loop from any start *)

Section LoopFrom.
Context {F : Type} `{Arith F}.
Implicit Types h : heap F.
Variables a b c1 c2 : F.

Lemma term_from_SS k :
  term_from a b c1 c2 (S (S k)) =
  fsub (fmul c1 (term_from a b c1 c2 (S k))) (fmul c2 (term_from a b c1 c2 k)).
Proof.
  unfold term_from. simpl. destruct (terms_from a b c1 c2 k) as [x y].
  reflexivity.
Qed.

Lemma rewritten_length d k :
  (k ≤ length d)%nat → length (rewritten a b c1 c2 d k) = length d.
Proof.
  intros Hk. unfold rewritten.
  rewrite length_app, length_fmap, length_seq, length_drop. lia.
Qed.

Lemma rewritten_lookup d k i :
  (i < k)%nat → rewritten a b c1 c2 d k !! i = Some (term_from a b c1 c2 i).
Proof.
  intros Hi. unfold rewritten.
  rewrite lookup_app_l by (rewrite length_fmap, length_seq; lia).
  by rewrite list_lookup_fmap, lookup_seq_lt by lia.
Qed.

Lemma rewritten_step d k :
  (k < length d)%nat →
  <[k := term_from a b c1 c2 k]> (rewritten a b c1 c2 d k) =
  rewritten a b c1 c2 d (S k).
Proof.
  intros Hk. unfold rewritten.
  rewrite insert_app_r_alt by (rewrite length_fmap, length_seq; lia).
  rewrite length_fmap, length_seq, Nat.sub_diag.
  destruct (lookup_lt_is_Some_2 d k Hk) as [x Hx].
  rewrite (drop_S d x k Hx), seq_S, fmap_app, <- app_assoc. reflexivity.
Qed.

Lemma rewritten_start d :
  d !! 0%nat = Some a → d !! 1%nat = Some b → rewritten a b c1 c2 d 2 = d.
Proof.
  intros H0 H1. destruct d as [|x [|y d]]; simplify_eq/=. reflexivity.
Qed.

Lemma rewritten_full d :
  rewritten a b c1 c2 d (length d) =
  term_from a b c1 c2 <$> seq 0 (length d).
Proof. unfold rewritten. by rewrite drop_all, app_nil_r. Qed.

Lemma step_from d k h p :
  (2 ≤ k < length d)%nat → h !! p = Some (rewritten a b c1 c2 d k) →
  step c1 c2 p (Z.of_nat k) h =
  (Ok tt, <[p := rewritten a b c1 c2 d (S k)]> h).
Proof.
  intros Hk Hp. unfold step.
  destruct k as [|[|k]]; [lia..|].
  erewrite bind_run; cycle 1.
  { eapply getitem_run; [done|lia|]. apply rewritten_lookup. lia. }
  erewrite bind_run; cycle 1.
  { eapply getitem_run; [done|lia|]. apply rewritten_lookup. lia. }
  erewrite setitem_run; [|done|rewrite rewritten_length; lia].
  replace (Z.to_nat (Z.of_nat (S (S k)) - 1)) with (S k) by lia.
  replace (Z.to_nat (Z.of_nat (S (S k)) - 2)) with k by lia.
  rewrite Nat2Z.id, <- term_from_SS, rewritten_step by lia. reflexivity.
Qed.

Lemma loop_from d p m : ∀ k h,
  (2 ≤ k)%nat → (k + m = length d)%nat →
  h !! p = Some (rewritten a b c1 c2 d k) →
  for_ (seqZ (Z.of_nat k) (Z.of_nat m)) (step c1 c2 p) h =
  (Ok tt, <[p := rewritten a b c1 c2 d (length d)]> h).
Proof.
  induction m as [|m IH]; intros k h Hk Hlen Hp.
  - replace k with (length d) in * by lia. simpl.
    rewrite list_insert_id by done. reflexivity.
  - rewrite seqZ_cons by lia. simpl.
    erewrite bind_run; [|apply (step_from d); [lia|done]].
    replace (Z.succ (Z.of_nat k)) with (Z.of_nat (S k)) by lia.
    replace (Z.pred (Z.of_nat (S m))) with (Z.of_nat m) by lia.
    rewrite IH; [|lia|lia|].
    + by rewrite list_insert_insert_eq.
    + apply list_lookup_insert_eq. by eapply lookup_lt_Some.
Qed.

(** X2: the loop needs only the first two elements.  On any array of
    length [n+1 >= 2] that starts [a, b], whatever it holds from index 2
    on, the loop raises nothing and leaves the array holding the sequence
    defined by [a], [b] and the recurrence; no other array changes. *)
Theorem loop_any_start (n : Z) h p d :
  h !! p = Some d → length d = Z.to_nat (n + 1) → 1 ≤ n →
  d !! 0%nat = Some a → d !! 1%nat = Some b →
  ∃ d', loop c1 c2 p n h = (Ok tt, <[p := d']> h) ∧
    length d' = length d ∧
    d' !! 0%nat = Some a ∧ d' !! 1%nat = Some b ∧
    (∀ j, 2 ≤ j ≤ n → ∃ x y,
       d' !! Z.to_nat (j - 1) = Some x ∧ d' !! Z.to_nat (j - 2) = Some y ∧
       d' !! Z.to_nat j = Some (fsub (fmul c1 x) (fmul c2 y))) ∧
    ∀ q, q ≠ p → <[p := d']> h !! q = h !! q.
Proof.
  intros Hp Hlen Hn H0 H1.
  exists (term_from a b c1 c2 <$> seq 0 (length d)).
  assert (Hlk : ∀ i : nat, (i < length d)%nat →
    (term_from a b c1 c2 <$> seq 0 (length d)) !! i
    = Some (term_from a b c1 c2 i)).
  { intros i Hi. by rewrite list_lookup_fmap, lookup_seq_lt. }
  split.
  { unfold loop, range. rewrite <- rewritten_full.
    replace (n + 1 - 2) with (Z.of_nat (length d - 2)) by lia.
    apply (loop_from d p (length d - 2) 2%nat); [lia|lia|].
    by rewrite rewritten_start. }
  split; [by rewrite length_fmap, length_seq|].
  split; [by rewrite Hlk by lia|]. split; [by rewrite Hlk by lia|].
  split.
  - intros j Hj. eexists _, _. rewrite !Hlk by lia.
    split; [done|]. split; [done|].
    replace (Z.to_nat j) with (S (S (Z.to_nat (j - 2)))) by lia.
    replace (Z.to_nat (j - 1)) with (S (Z.to_nat (j - 2))) by lia.
    by rewrite term_from_SS.
  - intros q Hq. by rewrite list_lookup_insert_ne.
Qed.

(** The same, with the array the loop leaves written out. *)
Lemma loop_run_from (n : Z) h p d :
  h !! p = Some d → length d = Z.to_nat (n + 1) → 1 ≤ n →
  d !! 0%nat = Some a → d !! 1%nat = Some b →
  loop c1 c2 p n h =
  (Ok tt, <[p := term_from a b c1 c2 <$> seq 0 (Z.to_nat (n + 1))]> h).
Proof.
  intros Hp Hlen Hn H0 H1. unfold loop, range.
  rewrite <- Hlen, <- rewritten_full.
  replace (n + 1 - 2) with (Z.of_nat (length d - 2)) by lia.
  apply (loop_from d p (length d - 2) 2%nat); [lia|lia|].
  by rewrite rewritten_start.
Qed.

End LoopFrom.

(** ** Why one recurrence is stable and the other is not *)

Section Branches.
Implicit Types h : heap Qc.
Open Scope Qc_scope.

(** A recurrence whose characteristic polynomial [x^2 = c1 * x - c2] has
    two roots [r1 <> r2] has the solution [general r1 r2 a b]. *)
Lemma terms_general (c1 c2 r1 r2 a b : Qc) :
  r1 * r1 = c1 * r1 - c2 → r2 * r2 = c1 * r2 - c2 → r1 ≠ r2 →
  ∀ k, terms_from a b c1 c2 k =
       (general r1 r2 a b k, general r1 r2 a b (S k)).
Proof.
  intros Hr1 Hr2 Hne.
  assert (Hd : r1 - r2 ≠ 0).
  { intros E. apply Hne. rewrite <- (Qcplus_0_l r2), <- E. ring. }
  induction k as [|k IH].
  - simpl. unfold general. simpl. f_equal; field; exact Hd.
  - simpl terms_from. rewrite IH. f_equal.
    change (fsub (fmul c1 (general r1 r2 a b (S k)))
                 (fmul c2 (general r1 r2 a b k)))
      with (c1 * general r1 r2 a b (S k) - c2 * general r1 r2 a b k).
    unfold general. simpl Qcpower.
    set (A := (b - a * r2) / (r1 - r2)). set (B := (a * r1 - b) / (r1 - r2)).
    transitivity (A * r1 ^ k * (c1 * r1 - c2) + B * r2 ^ k * (c1 * r2 - c2));
      [ring|].
    rewrite <- Hr1, <- Hr2. ring.
Qed.

Lemma general_branch (r2 δ : Qc) k :
  r2 ≠ third → general third r2 1 (third + δ) k = branch r2 δ k.
Proof.
  intros Hne. unfold general, branch.
  assert (third - r2 ≠ 0).
  { intros E. apply Hne. rewrite <- (Qcplus_0_l r2), <- E. ring. }
  assert (r2 - third ≠ 0).
  { intros E. apply Hne. rewrite <- (Qcplus_0_l third), <- E. ring. }
  field. split; assumption.
Qed.

Lemma half_root :
  half * half = fdiv (of_int 5) (of_int 6) * half - fdiv (of_int 1) (of_int 6).
Proof. apply Qc_is_canon. reflexivity. Qed.

Lemma four_thirds_root :
  four_thirds * four_thirds =
  fdiv (of_int 5) (of_int 3) * four_thirds - fdiv (of_int 4) (of_int 9).
Proof. apply Qc_is_canon. reflexivity. Qed.

Lemma branch_terms (c1 c2 r2 δ : Qc) k :
  third * third = c1 * third - c2 → r2 * r2 = c1 * r2 - c2 → r2 ≠ third →
  term_from (of_int 1) (third + δ) c1 c2 k = branch r2 δ k.
Proof.
  intros H1 H2 Hne. unfold term_from.
  change (of_int 1) with 1.
  rewrite (terms_general c1 c2 third r2) by auto. simpl.
  by apply general_branch.
Qed.

(** X3: in exact arithmetic, the loop run on an array that starts
    [1, 1/3 + δ] leaves [(1/3)^k + 6 δ ((1/2)^k - (1/3)^k)] at index [k]
    with the coefficients of [prec], and
    [(1/3)^k + δ ((4/3)^k - (1/3)^k)] with those of [qrec].  An error
    [δ] in the second element stays below [6 δ (1/2)^k] in the first
    and grows as [δ (4/3)^k] in the second. *)
Theorem perturbed_start (δ : Qc) (n : Z) h p d :
  h !! p = Some d → length d = Z.to_nat (n + 1) → (1 ≤ n)%Z →
  d !! 0%nat = Some 1 → d !! 1%nat = Some (third + δ) →
  loop (fdiv (of_int 5) (of_int 6)) (fdiv (of_int 1) (of_int 6)) p n h =
    (Ok tt, <[p := branch half δ <$> seq 0 (Z.to_nat (n + 1))]> h) ∧
  loop (fdiv (of_int 5) (of_int 3)) (fdiv (of_int 4) (of_int 9)) p n h =
    (Ok tt, <[p := branch four_thirds δ <$> seq 0 (Z.to_nat (n + 1))]> h) ∧
  (∀ k, branch half δ k =
        third ^ k + Q2Qc 6 * δ * (half ^ k - third ^ k)) ∧
  (∀ k, branch four_thirds δ k =
        third ^ k + δ * (four_thirds ^ k - third ^ k)).
Proof.
  intros Hp Hlen Hn H0 H1.
  assert (Hfmap : ∀ c1 c2 r2,
    third * third = c1 * third - c2 → r2 * r2 = c1 * r2 - c2 → r2 ≠ third →
    term_from (of_int 1) (third + δ) c1 c2 <$> seq 0 (Z.to_nat (n + 1)) =
    branch r2 δ <$> seq 0 (Z.to_nat (n + 1))).
  { intros c1 c2 r2 E1 E2 Hne. apply list_eq. intros i.
    rewrite !list_lookup_fmap.
    destruct (seq 0 (Z.to_nat (n + 1)) !! i); [|done].
    simpl. f_equal. by apply branch_terms. }
  split; [|split; [|split]].
  - erewrite (loop_run_from (of_int 1) (third + δ)); [|done..].
    by rewrite (Hfmap _ _ half (eq_sym prec_root) half_root).
  - erewrite (loop_run_from (of_int 1) (third + δ)); [|done..].
    by rewrite (Hfmap _ _ four_thirds (eq_sym qrec_root) four_thirds_root).
  - intros k. unfold branch, Qcdiv.
    replace (/ (half - third)) with (Q2Qc 6)
      by (apply Qc_is_canon; reflexivity).
    ring.
  - intros k. unfold branch, Qcdiv.
    replace (/ (four_thirds - third)) with 1
      by (apply Qc_is_canon; reflexivity).
    ring.
Qed.

End Branches.

(** ** Arrays, indices and the calls together *)

Section Composition.
Context {F : Type} `{Arith F}.
Implicit Types h : heap F.

Lemma recurrence_prefix c1 c2 (m n : Z) :
  1 ≤ m ≤ n →
  term c1 c2 <$> seq 0 (Z.to_nat (m + 1)) =
  take (Z.to_nat (m + 1)) (term c1 c2 <$> seq 0 (Z.to_nat (n + 1))).
Proof.
  intros Hmn. rewrite <- fmap_take, take_seq. do 2 f_equal. lia.
Qed.

(** X1: a shorter call returns the beginning of a longer one.  For
    [1 <= m <= n], in any two heaps, the array of [prec(m)] is the first
    [m+1] elements of the array of [prec(n)], and likewise for [qrec]:
    an element does not depend on how many come after it. *)
Theorem shorter_is_prefix (m n : Z) h h' :
  1 ≤ m ≤ n →
  (∃ s t, prec m h = (Ok (length h), h ++ [s]) ∧
          prec n h' = (Ok (length h'), h' ++ [t]) ∧
          s = take (Z.to_nat (m + 1)) t) ∧
  (∃ s t, qrec m h = (Ok (length h), h ++ [s]) ∧
          qrec n h' = (Ok (length h'), h' ++ [t]) ∧
          s = take (Z.to_nat (m + 1)) t).
Proof.
  intros Hmn. rewrite !prec_recurrence, !qrec_recurrence.
  split; eexists _, _;
    (split; [apply recurrence_run; lia|];
     split; [apply recurrence_run; lia|]; by apply recurrence_prefix).
Qed.

(** Storing and reading back. *)
Lemma index_neg (len : nat) i :
  - Z.of_nat len ≤ i < 0 → index len i = Some (Z.to_nat (i + Z.of_nat len)).
Proof.
  intros Hi. unfold index.
  destruct (decide (i < 0)); [|lia].
  destruct (decide (0 ≤ i + Z.of_nat len < Z.of_nat len)); [done|lia].
Qed.

Lemma index_below (len : nat) i : i < - Z.of_nat len → index len i = None.
Proof.
  intros Hi. unfold index.
  destruct (decide (i < 0)); [|lia].
  destruct (decide (0 ≤ i + Z.of_nat len < Z.of_nat len)); [lia|done].
Qed.

(** An index is accepted exactly in [-len .. len-1], and the slot it
    names is below [len]. *)
Lemma index_Some (len : nat) i k :
  index len i = Some k →
  - Z.of_nat len ≤ i < Z.of_nat len ∧ (k < len)%nat ∧
  (Z.of_nat k = i ∨ Z.of_nat k = i + Z.of_nat len).
Proof.
  unfold index. intros Hk.
  destruct (decide (i < 0));
    destruct (decide _) as [Hin|]; simplify_eq; lia.
Qed.

(** X9: [p[i] = v] then [p[j]].  For an index [i] within
    [-len .. len-1] the store succeeds and keeps the length; reading any
    index that names the same slot (so [i] itself, [i - len] or
    [i + len]) returns [v], reading any other valid index returns what
    was there, and every other array is untouched.  Outside that range
    the store raises [IndexError] and changes nothing. *)
Theorem setitem_then_getitem h p d (i : Z) (v : F) :
  h !! p = Some d →
  (- Z.of_nat (length d) ≤ i < Z.of_nat (length d) →
     ∃ d', setitem p i v h = (Ok tt, <[p := d']> h) ∧
       length d' = length d ∧
       (∀ j, index (length d) j = index (length d) i →
             getitem p j (<[p := d']> h) = (Ok v, <[p := d']> h)) ∧
       (∀ j k, index (length d) j = Some k →
               index (length d) j ≠ index (length d) i →
               ∃ w, d !! k = Some w ∧
                    getitem p j (<[p := d']> h) = (Ok w, <[p := d']> h)) ∧
       ∀ q, q ≠ p → <[p := d']> h !! q = h !! q) ∧
  (i < - Z.of_nat (length d) ∨ Z.of_nat (length d) ≤ i →
     setitem p i v h = (Raise IndexError, h)).
Proof.
  intros Hp. split.
  - intros Hi.
    assert (∃ k, index (length d) i = Some k) as [k Hk].
    { destruct (decide (i < 0)).
      - eexists. apply index_neg. lia.
      - eexists. apply index_in. lia. }
    apply index_Some in Hk as Hlt.
    exists (<[k := v]> d).
    assert (Hp' : <[p := <[k := v]> d]> h !! p = Some (<[k := v]> d)).
    { apply list_lookup_insert_eq. by eapply lookup_lt_Some. }
    split.
    { unfold setitem.
      rewrite (bind_run _ _ _ _ _ (load_run _ _ _ Hp)). by rewrite Hk. }
    split; [apply length_insert|]. split; [|split].
    + intros j Hj. rewrite Hk in Hj. unfold getitem.
      rewrite (bind_run _ _ _ _ _ (load_run _ _ _ Hp')).
      rewrite length_insert, Hj.
      by rewrite list_lookup_insert_eq by lia.
    + intros j k' Hj Hne. rewrite Hk, Hj in Hne.
      apply index_Some in Hj as Hlt'.
      destruct (lookup_lt_is_Some_2 d k') as [w Hw]; [lia|].
      exists w. split; [done|]. unfold getitem.
      rewrite (bind_run _ _ _ _ _ (load_run _ _ _ Hp')).
      rewrite length_insert, Hj.
      rewrite list_lookup_insert_ne by congruence. by rewrite Hw.
    + intros q Hq. by rewrite list_lookup_insert_ne.
  - intros Hi. unfold setitem.
    rewrite (bind_run _ _ _ _ _ (load_run _ _ _ Hp)).
    destruct Hi; [by rewrite index_below|by rewrite index_out].
Qed.

(** X11: reading what a call returned.  For [n >= 1], [prec(n)[n]] and
    [prec(n)[-1]] are the same element, the last one; [prec(n)[0]] is 1;
    [prec(n)[n+1]] and [prec(n)[-(n+2)]] raise [IndexError].  Likewise
    for [qrec]. *)
Theorem last_item (n : Z) h :
  1 ≤ n →
  ∀ rec, rec = prec ∨ rec = qrec →
  ∃ s last, rec n h = (Ok (length h), h ++ [s]) ∧
    s !! Z.to_nat n = Some last ∧
    item_of rec n n h = (Ok last, h ++ [s]) ∧
    item_of rec n (-1) h = (Ok last, h ++ [s]) ∧
    item_of rec n 0 h = (Ok (of_int 1), h ++ [s]) ∧
    item_of rec n (n + 1) h = (Raise IndexError, h ++ [s]) ∧
    item_of rec n (- (n + 2)) h = (Raise IndexError, h ++ [s]).
Proof.
  intros Hn rec Hrec.
  assert (∃ c1 c2, rec = recurrence c1 c2) as (c1 & c2 & ->).
  { destruct Hrec as [-> | ->]; eexists _, _; reflexivity. }
  set (s := term c1 c2 <$> seq 0 (Z.to_nat (n + 1))).
  assert (Hlen : length s = Z.to_nat (n + 1))
    by (unfold s; by rewrite length_fmap, length_seq).
  assert (Hlk : ∀ i : nat, (i < Z.to_nat (n + 1))%nat →
                           s !! i = Some (term c1 c2 i)).
  { intros i Hi. unfold s. by rewrite list_lookup_fmap, lookup_seq_lt. }
  pose proof (recurrence_run c1 c2 n h Hn) as E. fold s in E.
  exists s, (term c1 c2 (Z.to_nat n)).
  split; [exact E|]. split; [apply Hlk; lia|].
  unfold item_of. rewrite !(bind_run _ _ _ _ _ E).
  pose proof (lookup_last h s) as Hs.
  split; [|split; [|split; [|split]]].
  - eapply getitem_run; [done|lia|apply Hlk; lia].
  - unfold getitem. rewrite (bind_run _ _ _ _ _ (load_run _ _ _ Hs)).
    rewrite index_neg by lia.
    replace (Z.to_nat (-1 + Z.of_nat (length s))) with (Z.to_nat n) by lia.
    by rewrite Hlk by lia.
  - eapply getitem_run; [done|lia|]. by rewrite Hlk by lia.
  - unfold getitem. rewrite (bind_run _ _ _ _ _ (load_run _ _ _ Hs)).
    by rewrite index_out by lia.
  - unfold getitem. rewrite (bind_run _ _ _ _ _ (load_run _ _ _ Hs)).
    by rewrite index_below by lia.
Qed.

End Composition.

(** ** The steps of cell 7 for any [N] *)

Section Pipeline.
Context {F : Type} `{Arith F} {pw : Pow (F:=F)}.
Implicit Types h : heap F.

Lemma error_series_raise (rec : Z → M loc) n h e h' :
  rec n h = (Raise e, h') → error_series rec n h = (Raise e, h').
Proof. intros E. unfold error_series. by rewrite (bind_raise _ _ _ _ _ E). Qed.

(** X5: where the steps of cell 7 fail.  For [N >= 1] they raise
    nothing, whatever [pow] returns, and leave six new arrays, the
    errors being [N+1] long.  For [N <= 0] the exception is the one of
    the recurrence, raised before the closed form is computed: the
    closed form by itself accepts every [N] and is empty for [N < 0]. *)
Theorem error_series_outcome (n : Z) h :
  ∀ rec, rec = prec ∨ rec = qrec →
  (1 ≤ n → ∃ s ps ref d u e,
     error_series rec n h =
       (Ok (length h + 5)%nat, h ++ [s; ps; ref; d; u; e]) ∧
     length s = Z.to_nat (n + 1) ∧ length ref = Z.to_nat (n + 1) ∧
     length e = Z.to_nat (n + 1)) ∧
  (n = 0 → error_series rec n h = (Raise IndexError, h ++ [[of_int 1]])) ∧
  (n = -1 → error_series rec n h = (Raise IndexError, h ++ [[]])) ∧
  (n < -1 → error_series rec n h = (Raise ValueError, h)) ∧
  (n < 0 → ReferenceSequence n h = (Ok (length h + 1)%nat, h ++ [[]; []])).
Proof.
  intros rec Hrec.
  assert (∃ c1 c2, rec = recurrence c1 c2) as (c1 & c2 & ->).
  { destruct Hrec as [-> | ->]; eexists _, _; reflexivity. }
  split; [|split; [|split; [|split]]].
  - intros Hn. eexists _, _, _, _, _, _.
    split; [by apply error_series_run|].
    split; [by rewrite length_fmap, length_seq|].
    split; [apply closed_form_length; lia|].
    rewrite errors_length; [apply closed_form_length; lia|].
    rewrite closed_form_length, length_fmap, length_seq by lia. done.
  - intros ->. apply error_series_raise, recurrence_0.
  - intros ->. apply error_series_raise, recurrence_minus_1.
  - intros Hn. by apply error_series_raise, recurrence_neg.
  - intros Hn. rewrite ReferenceSequence_run.
    unfold closed_form, powers, range. by rewrite seqZ_nil by lia.
Qed.

Lemma broadcast_scalar_r f (x : list F) y0 :
  broadcast f x [y0] = Ok ((λ a, f a y0) <$> x).
Proof.
  unfold broadcast. destruct (decide _) as [E|E].
  - destruct x as [|a [|a' x]]; simplify_eq/=. reflexivity.
  - destruct x as [|a [|a' x]]; simpl in *; done.
Qed.

Lemma broadcast_scalar_l f x0 (y : list F) :
  broadcast f [x0] y = Ok (f x0 <$> y).
Proof.
  unfold broadcast. destruct (decide _) as [E|E]; [|done].
  destruct y as [|b [|b' y]]; simplify_eq/=. reflexivity.
Qed.

(** X10: an array of one element acts as a scalar.  Against a reference
    [[x]] the call returns the errors of every computed element against
    [x]; a computed [[x]] is compared with every reference element.  No
    [ValueError] is raised for these unequal lengths. *)
Theorem ErrorEvaluator_scalar h c r cs rs x :
  holds c r cs rs h →
  (rs = [x] → ∃ d u, ErrorEvaluator c r h =
     (Ok (length h + 2)%nat, h ++ [d; u; (λ a, frac_err a x) <$> cs])) ∧
  (cs = [x] → ∃ d u, ErrorEvaluator c r h =
     (Ok (length h + 2)%nat, h ++ [d; u; (λ b, frac_err x b) <$> rs])).
Proof.
  intros Hh. split; intros ->; eexists _, _.
  - erewrite ErrorEvaluator_run; [|done|apply broadcast_scalar_r].
    unfold err_arrays. by rewrite <- !list_fmap_compose.
  - erewrite ErrorEvaluator_run; [|done|apply broadcast_scalar_l].
    unfold err_arrays. by rewrite <- !list_fmap_compose.
Qed.

(** X6: cell 7 as written.  Whatever the heap and whatever [pow]
    returns, the cell raises nothing; it leaves ten new arrays after the
    arrays that were there, which it does not change; [n] is
    [0, .., 40], and [p], [q], [expected], [perr] and [qerr] are five
    different new arrays of 41 elements each. *)
Theorem cell7_outcome h :
  ∃ g h', cell7 h = (Ok g, h') ∧
    length h' = (length h + 10)%nat ∧
    (∀ l d, h !! l = Some d → h' !! l = Some d) ∧
    n g = seqZ 0 41 ∧
    NoDup [p g; q g; expected g; perr g; qerr g] ∧
    Forall (λ l, (length h ≤ l)%nat ∧
                 ∃ d, h' !! l = Some d ∧ length d = 41%nat)
           [p g; q g; expected g; perr g; qerr g].
Proof.
  pose proof (cell7_run h) as E. cbv zeta in E.
  eexists _, _. split; [exact E|].
  assert (Hlen : ∀ c1 c2, length (term c1 c2 <$> seq 0 41) = 41%nat)
    by (intros; by rewrite length_fmap, length_seq).
  assert (Hcf : length (closed_form 40) = 41%nat)
    by (by rewrite closed_form_length).
  split; [rewrite length_app; simpl; lia|].
  split; [intros l d Hl; by apply lookup_app_l_Some|].
  split; [reflexivity|]. simpl.
  split.
  { apply NoDup_ListNoDup. repeat constructor; simpl; intuition lia. }
  repeat (apply Forall_cons; split;
    [split; [lia|]; rewrite lookup_new; eexists; split; [reflexivity|];
     rewrite ?errors_length; auto|]).
  apply Forall_nil. done.
Qed.

End Pipeline.

(** ** Without rounding there is no error *)

Section ExactErrors.
Implicit Types h : heap Qc.
Open Scope Qc_scope.

Lemma third_power_nonzero k : third ^ k ≠ 0.
Proof.
  induction k as [|k IH]; [discriminate|]. simpl. intros E.
  destruct (Qcmult_integral _ _ E) as [E'|E']; [discriminate|by apply IH].
Qed.

Lemma three_power_nonzero k : of_int 3 ^ k ≠ 0.
Proof.
  induction k as [|k IH]; [discriminate|]. simpl. intros E.
  destruct (Qcmult_integral _ _ E) as [E'|E']; [discriminate|by apply IH].
Qed.

Lemma third_power k : fdiv (of_int 1) (of_int 3 ^ k) = third ^ k.
Proof.
  change (fdiv (of_int 1) (of_int 3 ^ k)) with (1 / of_int 3 ^ k).
  induction k as [|k IH]; [by apply Qc_is_canon|].
  change (of_int 3 ^ S k) with (of_int 3 * of_int 3 ^ k).
  change (third ^ S k) with (third * third ^ k).
  rewrite <- IH.
  replace third with (/ of_int 3) by (apply Qc_is_canon; reflexivity).
  pose proof (three_power_nonzero k) as Hx.
  assert (H3 : of_int (F:=Qc) 3 ≠ 0) by discriminate.
  set (x := of_int 3 ^ k) in *. set (y := of_int (F:=Qc) 3) in *.
  clearbody x y. field. split; assumption.
Qed.

Lemma frac_err_same (x : Qc) : x ≠ 0 → frac_err x x = 0.
Proof.
  intros Hx. unfold frac_err.
  change (fsub (of_int 1) (fdiv x x)) with (1 - x / x).
  replace (1 - x / x) with 0 by (field; exact Hx).
  simpl. destruct (Qclt_le_dec 0 (Q2Qc 0)); [|done].
  by apply Qc_is_canon.
Qed.

Lemma closed_form_exact (pw : Pow (F:=Qc)) (n : Z) :
  (0 ≤ n)%Z →
  (∀ k, (0 ≤ k ≤ n)%Z → pw (of_int 3) (of_int k) = of_int 3 ^ Z.to_nat k) →
  closed_form n = third_powers n.
Proof.
  intros Hn Hpw. apply list_eq. intros i. unfold third_powers.
  destruct (decide (i < Z.to_nat (n + 1))%nat) as [Hi|Hi].
  - replace i with (Z.to_nat (Z.of_nat i)) at 1 by lia.
    rewrite closed_form_lookup by lia.
    rewrite list_lookup_fmap, lookup_seq_lt by lia.
    change (Qcpower third <$> Some (0 + i)%nat) with (Some (third ^ i)).
    f_equal.
    change (fpow (of_int 3) (of_int (Z.of_nat i)))
      with (pw (of_int 3) (of_int (Z.of_nat i))).
    rewrite Hpw by lia. rewrite Nat2Z.id. apply third_power.
  - rewrite !lookup_ge_None_2; [done|..].
    + rewrite length_fmap, length_seq. lia.
    + rewrite closed_form_length by lia. lia.
Qed.

(** X4: without rounding there is no error.  In exact arithmetic, with a
    power that is exact at [3 ** k], the steps of cell 7 give for every
    [N >= 1] a computed array equal to the reference and a series of
    errors that is zero at every index, for [prec] and for [qrec]: what
    [perr] and [qerr] hold in binary64 is rounding alone. *)
Theorem exact_errors_zero (pw : Pow (F:=Qc)) (n : Z) h :
  (1 ≤ n)%Z →
  (∀ k, (0 ≤ k ≤ n)%Z → pw (of_int 3) (of_int k) = of_int 3 ^ Z.to_nat k) →
  ∀ rec, rec = prec ∨ rec = qrec →
  ∃ s ps ref d u e,
    error_series rec n h =
      (Ok (length h + 5)%nat, h ++ [s; ps; ref; d; u; e]) ∧
    s = ref ∧ e = replicate (Z.to_nat (n + 1)) 0.
Proof.
  intros Hn Hpw rec Hrec.
  assert (∃ c1 c2, rec = recurrence c1 c2 ∧
            c1 * third - c2 = third * third) as (c1 & c2 & -> & Hroot).
  { destruct Hrec as [-> | ->]; eexists _, _;
      (split; [reflexivity|]); [apply prec_root|apply qrec_root]. }
  eexists _, _, _, _, _, _. split; [by apply error_series_run|].
  assert (Hs : term c1 c2 <$> seq 0 (Z.to_nat (n + 1)) = third_powers n).
  { unfold third_powers. apply list_eq. intros i.
    rewrite !list_lookup_fmap.
    destruct (seq 0 (Z.to_nat (n + 1)) !! i); [|done].
    simpl. f_equal. by apply term_exact. }
  rewrite Hs, (closed_form_exact pw n) by (done || lia).
  split; [done|]. apply list_eq. intros i. unfold third_powers.
  destruct (decide (i < Z.to_nat (n + 1))%nat) as [Hi|Hi].
  - rewrite lookup_replicate_2 by done.
    erewrite errors_lookup;
      [|by rewrite list_lookup_fmap, lookup_seq_lt by lia..].
    f_equal. apply frac_err_same, third_power_nonzero.
  - rewrite !lookup_ge_None_2; [done|..].
    + rewrite length_replicate. lia.
    + rewrite errors_length, length_fmap, length_seq; [lia|done].
Qed.

(** [pow_exact] is exact at every [3 ** k]. *)
Lemma pow_exact_at_3 (k : Z) :
  (0 ≤ k)%Z → pow_exact (of_int 3) (of_int k) = of_int 3 ^ Z.to_nat k.
Proof.
  intros Hk. unfold pow_exact. do 2 f_equal. simpl.
  rewrite Qred_identity; [done|]. simpl. apply Z.gcd_1_r.
Qed.

End ExactErrors.

(** ** binary64: where rounding and overflow show *)

Section Binary64More.
Implicit Types h : heap float.
Open Scope float_scope.

Lemma series_lookup c1 c2 (pw : Pow (F:=float)) (n k : Z) :
  (0 ≤ k ≤ n)%Z →
  (term c1 c2 <$> seq 0 (Z.to_nat (n + 1))) !! Z.to_nat k
    = Some (term c1 c2 (Z.to_nat k)) ∧
  closed_form n !! Z.to_nat k = Some (1 / pw 3 (float_of_Z k)) ∧
  (fabs <$> (fsub (of_int 1) <$>
     zip_with fdiv (term c1 c2 <$> seq 0 (Z.to_nat (n + 1)))
              (closed_form n))) !! Z.to_nat k
    = Some (frac_err (term c1 c2 (Z.to_nat k)) (1 / pw 3 (float_of_Z k))).
Proof.
  intros Hk.
  assert (Hs : (term c1 c2 <$> seq 0 (Z.to_nat (n + 1))) !! Z.to_nat k
               = Some (term c1 c2 (Z.to_nat k)))
    by (by rewrite list_lookup_fmap, lookup_seq_lt by lia).
  assert (Hr : closed_form n !! Z.to_nat k = Some (1 / pw 3 (float_of_Z k)))
    by (by rewrite closed_form_lookup).
  split; [done|]. split; [done|]. by apply errors_lookup.
Qed.

Lemma overflow_rec (pw : Pow (F:=float)) c1 c2 (n k : Z) h :
  (1 ≤ n)%Z → (0 ≤ k ≤ n)%Z → pw 3 (float_of_Z k) = infinity →
  ∃ s ps ref d u e,
    error_series (recurrence c1 c2) n h =
      (Ok (length h + 5)%nat, h ++ [s; ps; ref; d; u; e]) ∧
    ref !! Z.to_nat k = Some 0 ∧
    (e !! Z.to_nat k = Some infinity ∨ e !! Z.to_nat k = Some nan).
Proof.
  intros Hn Hk Hinf. eexists _, _, _, _, _, _.
  split; [by apply error_series_run|].
  destruct (series_lookup c1 c2 pw n k Hk) as (_ & Hr & He).
  rewrite Hinf in Hr, He.
  split; [exact Hr|]. rewrite He.
  destruct (frac_err_zero (term c1 c2 (Z.to_nat k)) (1 / infinity))
    as [-> | ->]; auto.
Qed.

(** X7: too large an [N].  Where [pow(3., k)] overflows to infinity the
    reference [1/3.**k] is [0.0], and the error of either recurrence at
    that index is infinite or NaN; nothing is raised. *)
Theorem overflow_gives_zero_reference (pw : Pow (F:=float)) (n k : Z) h :
  (1 ≤ n)%Z → (0 ≤ k ≤ n)%Z → pw 3 (float_of_Z k) = infinity →
  ∀ rec, rec = prec ∨ rec = qrec →
  ∃ s ps ref d u e,
    error_series rec n h =
      (Ok (length h + 5)%nat, h ++ [s; ps; ref; d; u; e]) ∧
    ref !! Z.to_nat k = Some 0 ∧
    (e !! Z.to_nat k = Some infinity ∨ e !! Z.to_nat k = Some nan).
Proof.
  intros Hn Hk Hinf rec [-> | ->]; by apply overflow_rec.
Qed.

Lemma index_2_rec (pw : Pow (F:=float)) c1 c2 (n : Z) h :
  (2 ≤ n)%Z → pw 3 2 = 9 →
  ∃ s ps ref d u e,
    error_series (recurrence c1 c2) n h =
      (Ok (length h + 5)%nat, h ++ [s; ps; ref; d; u; e]) ∧
    s !! 2%nat = Some (term c1 c2 2) ∧ ref !! 2%nat = Some (1 / 9) ∧
    e !! 2%nat = Some (frac_err (term c1 c2 2) (1 / 9)).
Proof.
  intros Hn H9. eexists _, _, _, _, _, _.
  split; [apply error_series_run; lia|].
  destruct (series_lookup c1 c2 pw n 2) as (Hs & Hr & He); [lia|].
  change (pw 3 (float_of_Z 2)) with (pw 3 2) in Hr, He.
  rewrite H9 in Hr, He. done.
Qed.

(** X12: rounding shows first at index 2, and differently in the two
    functions.  For every [n >= 2], [prec(n)[2]] is
    0.11111111111111113 and [qrec(n)[2]] is 0.11111111111111116, two
    and four units in the last place above the reference
    0.1111111111111111 (given [pow(3., 2.) = 9.]); the errors at index
    2 are [2^-52] and [2^-51]. *)
Theorem rounding_starts_at_2 (pw : Pow (F:=float)) (n : Z) h :
  (2 ≤ n)%Z → pw 3 2 = 9 →
  (∃ s ps ref d u e,
     error_series prec n h =
       (Ok (length h + 5)%nat, h ++ [s; ps; ref; d; u; e]) ∧
     s !! 2%nat = Some 0.11111111111111113 ∧
     ref !! 2%nat = Some 0.1111111111111111 ∧
     e !! 2%nat = Some 2.2204460492503131e-16) ∧
  (∃ s ps ref d u e,
     error_series qrec n h =
       (Ok (length h + 5)%nat, h ++ [s; ps; ref; d; u; e]) ∧
     s !! 2%nat = Some 0.11111111111111116 ∧
     ref !! 2%nat = Some 0.1111111111111111 ∧
     e !! 2%nat = Some 4.4408920985006262e-16) ∧
  next_up (next_up 0.1111111111111111) = 0.11111111111111113 ∧
  next_up (next_up 0.11111111111111113) = 0.11111111111111116 ∧
  2.2204460492503131e-16 = Z.ldexp 1 (-52) ∧
  4.4408920985006262e-16 = Z.ldexp 1 (-51).
Proof.
  intros Hn H9. split; [|split].
  - exact (index_2_rec pw _ _ n h Hn H9).
  - exact (index_2_rec pw _ _ n h Hn H9).
  - repeat split; vm_compute; reflexivity.
Qed.

(** The int64 powers of cell 8 up to [3**39], checked one by one: they
    convert to the float the correctly rounded power gives, and their
    inverse is positive. *)
Lemma int64_route_checked :
  Forall (λ k, float_of_Z (3 ^ k) = pow_nearest 3 (float_of_Z k) ∧
               (0 <? 1 / float_of_Z (3 ^ k)) = true) (seqZ 0 40).
Proof.
  let l := eval vm_compute in (seqZ 0 40) in change (seqZ 0 40) with l.
  repeat (apply Forall_cons; split;
    [split; vm_compute; reflexivity|]).
  by apply Forall_nil.
Qed.

Lemma wrap64_small z : (- 2 ^ 63 ≤ z < 2 ^ 63)%Z → wrap64 z = z.
Proof. intros Hz. unfold wrap64. rewrite Z.mod_small; lia. Qed.

Lemma cell8_lookup (N k : Z) :
  (0 ≤ k ≤ N)%Z →
  np_ipow 3 (np_arange (N + 1)) !! Z.to_nat k = Some (wrap64 (3 ^ k)) ∧
  cell8 (np_arange (N + 1)) !! Z.to_nat k
    = Some (1 / float_of_Z (wrap64 (3 ^ k))).
Proof.
  intros Hk. unfold cell8, np_ipow, np_arange, range.
  rewrite !list_lookup_fmap, lookup_seqZ_lt by lia. simpl.
  by replace (0 + Z.of_nat (Z.to_nat k))%Z with k by lia.
Qed.

(** X8: the int64 powers of cell 8.  For every [N], [3**n] is exact up
    to index 39, where [1/3**n] is positive and equal to the inverse of
    the correctly rounded float power; at index 40 (when [N >= 40]) the
    power has wrapped around to [3^40 - 2^64], and [1/3**n] is
    negative. *)
Theorem int64_powers (N k : Z) :
  (0 ≤ k ≤ N)%Z →
  ((k ≤ 39)%Z →
     np_ipow 3 (np_arange (N + 1)) !! Z.to_nat k = Some (3 ^ k)%Z ∧
     cell8 (np_arange (N + 1)) !! Z.to_nat k
       = Some (1 / pow_nearest 3 (float_of_Z k)) ∧
     (0 <? 1 / pow_nearest 3 (float_of_Z k)) = true) ∧
  (k = 40%Z →
     np_ipow 3 (np_arange (N + 1)) !! 40%nat = Some (3 ^ 40 - 2 ^ 64)%Z ∧
     ∃ x, cell8 (np_arange (N + 1)) !! 40%nat = Some x ∧ (x <? 0) = true).
Proof.
  intros Hk. destruct (cell8_lookup N k Hk) as [Hi Hc]. split.
  - intros H39.
    assert (Hsmall : wrap64 (3 ^ k) = (3 ^ k)%Z).
    { apply wrap64_small.
      assert (0 < 3 ^ k)%Z by (apply Z.pow_pos_nonneg; lia).
      assert (3 ^ k ≤ 3 ^ 39)%Z by (apply Z.pow_le_mono_r; lia).
      lia. }
    rewrite Hsmall in Hi, Hc.
    pose proof int64_route_checked as Hall. rewrite Forall_seqZ in Hall.
    destruct (Hall k) as [Heq Hpos]; [lia|].
    rewrite <- Heq. done.
  - intros ->. split; [exact Hi|].
    eexists. split; [exact Hc|]. vm_compute. reflexivity.
Qed.

End Binary64More.

(** ** The further properties at concrete inputs *)

Lemma shorter_is_prefix_witness :
  1 ≤ 2 ≤ 4 ∧
  ∃ s t, prec (F:=float) 2 [] = (Ok 0%nat, [s]) ∧
         prec (F:=float) 4 [[]] = (Ok 1%nat, [[]; t]) ∧ s = take 3 t.
Proof.
  split; [lia|].
  exact (proj1 (shorter_is_prefix (F:=float) 2 4 [] [[]] ltac:(lia))).
Defined.

Lemma loop_any_start_witness :
  [[7; 8; 0; 0]%float] !! 0%nat = Some [7; 8; 0; 0]%float ∧ 1 ≤ 3 ∧
  ∃ d', loop 2%float 1%float 0%nat 3 [[7; 8; 0; 0]%float] =
          (Ok tt, <[0%nat := d']> [[7; 8; 0; 0]%float]) ∧
        d' !! 0%nat = Some 7%float ∧ d' !! 1%nat = Some 8%float.
Proof.
  split; [reflexivity|]. split; [lia|].
  destruct (loop_any_start (F:=float) 7%float 8%float 2%float 1%float 3
              [[7; 8; 0; 0]%float] 0%nat [7; 8; 0; 0]%float
              eq_refl eq_refl ltac:(lia) eq_refl eq_refl)
    as (d' & E & _ & H0 & H1 & _).
  exists d'. auto.
Defined.

Lemma perturbed_start_witness :
  [[Q2Qc 1; (third + Q2Qc (1 # 100))%Qc; Q2Qc 0]] !! 0%nat =
    Some [Q2Qc 1; (third + Q2Qc (1 # 100))%Qc; Q2Qc 0] ∧
  1 ≤ 2 ∧
  loop (fdiv (of_int 5) (of_int 3)) (fdiv (of_int 4) (of_int 9)) 0%nat 2
       [[Q2Qc 1; (third + Q2Qc (1 # 100))%Qc; Q2Qc 0]] =
    (Ok tt, <[0%nat := branch four_thirds (Q2Qc (1 # 100)) <$> seq 0 3]>
              [[Q2Qc 1; (third + Q2Qc (1 # 100))%Qc; Q2Qc 0]]).
Proof.
  split; [reflexivity|]. split; [lia|].
  exact (proj1 (proj2 (perturbed_start (Q2Qc (1 # 100)) 2
            [[Q2Qc 1; (third + Q2Qc (1 # 100))%Qc; Q2Qc 0]] 0%nat
            [Q2Qc 1; (third + Q2Qc (1 # 100))%Qc; Q2Qc 0]
            eq_refl eq_refl ltac:(lia) eq_refl eq_refl))).
Defined.

Lemma exact_errors_zero_witness :
  1 ≤ 3 ∧
  (∀ k, 0 ≤ k ≤ 3 →
        pow_exact (of_int 3) (of_int k) = (of_int 3 ^ Z.to_nat k)%Qc) ∧
  ∃ s ps ref d u e,
    error_series (pw:=pow_exact) qrec 3 [] =
      (Ok 5%nat, [s; ps; ref; d; u; e]) ∧
    s = ref ∧ e = replicate 4 (Q2Qc 0).
Proof.
  assert (Hpw : ∀ k, 0 ≤ k ≤ 3 →
    pow_exact (of_int 3) (of_int k) = (of_int 3 ^ Z.to_nat k)%Qc)
    by (intros k Hk; apply pow_exact_at_3; lia).
  split; [lia|]. split; [exact Hpw|].
  exact (exact_errors_zero pow_exact 3 [] ltac:(lia) Hpw qrec
           (or_intror eq_refl)).
Defined.

Lemma error_series_outcome_witness :
  (prec = prec ∨ prec = qrec) ∧
  error_series (F:=float) (pw:=pow_nearest) prec 0 [] =
    (Raise IndexError, [[1%float]]).
Proof.
  split; [by left|].
  exact (proj1 (proj2 (error_series_outcome (F:=float) (pw:=pow_nearest)
                         0 [] prec (or_introl eq_refl))) eq_refl).
Defined.

Lemma setitem_then_getitem_witness :
  [[1; 2; 3]%float] !! 0%nat = Some [1; 2; 3]%float ∧
  setitem 0%nat 3 9%float [[1; 2; 3]%float] =
    (Raise IndexError, [[1; 2; 3]%float]).
Proof.
  split; [reflexivity|].
  apply (proj2 (setitem_then_getitem (F:=float) [[1; 2; 3]%float] 0%nat
                  [1; 2; 3]%float 3 9%float eq_refl)).
  right. simpl. lia.
Defined.

Lemma ErrorEvaluator_scalar_witness :
  holds 0%nat 1%nat [1; 2]%float [4]%float [[1; 2]%float; [4]%float] ∧
  ∃ d u, ErrorEvaluator 0%nat 1%nat [[1; 2]%float; [4]%float] =
    (Ok 4%nat, [[1; 2]%float; [4]%float] ++
               [d; u; (λ a, frac_err a 4%float) <$> [1; 2]%float]).
Proof.
  assert (Hh : holds 0%nat 1%nat [1; 2]%float [4]%float
                 [[1; 2]%float; [4]%float]) by (split; reflexivity).
  split; [exact Hh|].
  exact (proj1 (ErrorEvaluator_scalar (F:=float) _ 0%nat 1%nat _ _ 4%float Hh)
           eq_refl).
Defined.

Lemma last_item_witness :
  1 ≤ 4 ∧ (qrec = prec ∨ qrec = qrec) ∧
  ∃ s last, qrec (F:=float) 4 [] = (Ok 0%nat, [s]) ∧
    item_of qrec 4 4 [] = (Ok last, [s]) ∧
    item_of qrec 4 (-1) [] = (Ok last, [s]) ∧
    item_of qrec 4 5 [] = (Raise IndexError, [s]).
Proof.
  split; [lia|]. split; [by right|].
  destruct (last_item (F:=float) 4 [] ltac:(lia) qrec (or_intror eq_refl))
    as (s & last & E & _ & H1 & H2 & _ & H3 & _).
  exists s, last. auto.
Defined.

Lemma overflow_gives_zero_reference_witness :
  1 ≤ 700 ∧ 0 ≤ 700 ≤ 700 ∧
  pow_nearest 3%float (float_of_Z 700) = infinity ∧
  ∃ s ps ref d u e,
    error_series (pw:=pow_nearest) prec 700 [] =
      (Ok 5%nat, [s; ps; ref; d; u; e]) ∧
    ref !! 700%nat = Some 0%float.
Proof.
  assert (Hinf : pow_nearest 3%float (float_of_Z 700) = infinity)
    by (vm_compute; reflexivity).
  split; [lia|]. split; [lia|]. split; [exact Hinf|].
  destruct (overflow_gives_zero_reference pow_nearest 700 700 []
              ltac:(lia) ltac:(lia) Hinf prec (or_introl eq_refl))
    as (s & ps & ref & d & u & e & E & Hr & _).
  exists s, ps, ref, d, u, e. auto.
Defined.

Lemma rounding_starts_at_2_witness :
  2 ≤ 2 ∧ pow_nearest 3%float 2%float = 9%float ∧
  ∃ s ps ref d u e,
    error_series (pw:=pow_nearest) prec 2 [] =
      (Ok 5%nat, [s; ps; ref; d; u; e]) ∧
    e !! 2%nat = Some 2.2204460492503131e-16%float.
Proof.
  split; [lia|]. split; [vm_compute; reflexivity|].
  destruct (proj1 (rounding_starts_at_2 pow_nearest 2 [] ltac:(lia) eq_refl))
    as (s & ps & ref & d & u & e & E & _ & _ & He).
  exists s, ps, ref, d, u, e. auto.
Defined.

Lemma int64_powers_witness :
  0 ≤ 40 ≤ 40 ∧
  np_ipow 3 (np_arange (40 + 1)) !! 40%nat = Some (3 ^ 40 - 2 ^ 64).
Proof.
  split; [lia|].
  exact (proj1 (proj2 (int64_powers 40 40 ltac:(lia)) eq_refl)).
Defined.
